(** * Verification of the spam-classifier text pipeline (model.ipynb)

    The notebook's four functions [processMail], [createVocabulary],
    [getFeatureMatrix] and [predictSamples] are embedded as Rocq functions,
    together with the few Python primitives they call ([str.find], slicing,
    [str.lower], [str.strip], [re.sub], [re.split], [sorted], [dict]).

    Texts are strings of code points below 256 (ASCII and Latin-1), which is
    what the type [string] holds.  The Porter stemmer, the file system and
    the linear classifier are external to the notebook and are taken as
    parameters. *)

From stdpp Require Import base list sorting strings.
From Stdlib Require Import Ascii ZArith Lia Bool.

#[global] Set Warnings "-clear-no-such-hyp".
#[local] Open Scope nat_scope.
#[global] Arguments String.append !_ _ : simpl nomatch.

(** ** Python string primitives *)

Module Py.

Definition code (c : ascii) : N := N_of_ascii c.

Definition between (lo hi c : ascii) : bool :=
  ((code lo <=? code c) && (code c <=? code hi))%N.

(** [str.isspace] on one character, which is also what [\s] matches in a
    [str] pattern: TAB..CR, FS..US, SPACE, NEL and NBSP below 256. *)
Definition isspace (c : ascii) : bool :=
  let n := code c in
  ((9 <=? n) && (n <=? 13) || (28 <=? n) && (n <=? 32)
   || (n =? 133) || (n =? 160))%N.

Definition isupper (c : ascii) : bool := between "A" "Z" c.

(** [str.lower] on one character of a text of code points below 256, the
    texts modelled here: A..Z, and the Latin-1 capitals U+00C0..U+00DE
    except the multiplication sign U+00D7.  On such a text [str.lower] works
    character by character.  On other text it need not: U+0130 becomes two
    code points.  So no property below is drawn from the length of a
    lowercased text or from the position of a character in it. *)
Definition lower_char (c : ascii) : ascii :=
  if isupper c || (192 <=? code c)%N && (code c <=? 222)%N
                  && negb (code c =? 215)%N
  then ascii_of_N (code c + 32) else c.

Fixpoint lower (s : string) : string :=
  match s with
  | EmptyString => EmptyString
  | String c s' => String (lower_char c) (lower s')
  end.

Definition len (s : string) : nat := String.length s.

Fixpoint drop_str (n : nat) (s : string) : string :=
  match n, s with
  | S k, String _ s' => drop_str k s'
  | _, _ => s
  end.

(** [strip_prefix p s] is [Some t] when [s = p +:+ t]. *)
Fixpoint strip_prefix (p s : string) : option string :=
  match p, s with
  | EmptyString, _ => Some s
  | String a p', String b s' =>
      if Ascii.eqb a b then strip_prefix p' s' else None
  | String _ _, EmptyString => None
  end.

(** [s.find(sub)]: the lowest index at which [sub] occurs, or -1. *)
Fixpoint find_at (sub s : string) (i : Z) : Z :=
  match strip_prefix sub s with
  | Some _ => i
  | None =>
      match s with
      | EmptyString => (-1)%Z
      | String _ s' => find_at sub s' (i + 1)%Z
      end
  end.

Definition find (sub s : string) : Z := find_at sub s 0%Z.

(** [s[i:]] with Python's treatment of a negative start: it counts from the
    end, and both ends are clamped to the string. *)
Definition slice_from (i : Z) (s : string) : string :=
  let n := Z.of_nat (len s) in
  let start := if (i <? 0)%Z then Z.max 0 (n + i) else Z.min i n in
  drop_str (Z.to_nat start) s.

Fixpoint lstrip (s : string) : string :=
  match s with
  | String c s' => if isspace c then lstrip s' else s
  | EmptyString => EmptyString
  end.

Fixpoint rstrip (s : string) : string :=
  match s with
  | EmptyString => EmptyString
  | String c s' =>
      match rstrip s' with
      | EmptyString => if isspace c then EmptyString else String c EmptyString
      | t => String c t
      end
  end.

(** [s.strip()] *)
Definition strip (s : string) : string := rstrip (lstrip s).

End Py.

(** ** The fragment of Python's [re] the notebook uses *)

Module Re.
Import Py.

(** Members of a bracket expression: a character, a range [lo-hi], or the
    escape [\s]. *)
Inductive citem : Type :=
| Chr (c : ascii)
| Rng (lo hi : ascii)
| Space.

(** [[...]] and [[^...]]. *)
Record cclass : Type := { negated : bool; items : list citem }.

Definition cls (l : list citem) : cclass := {| negated := false; items := l |}.
Definition ncls (l : list citem) : cclass := {| negated := true; items := l |}.

Definition in_item (c : ascii) (it : citem) : bool :=
  match it with
  | Chr a => Ascii.eqb a c
  | Rng lo hi => between lo hi c
  | Space => isspace c
  end.

Definition in_class (cl : cclass) (c : ascii) : bool :=
  xorb (negated cl) (existsb (in_item c) (items cl)).

(** Patterns: literal text, one character of a class, sequence, ordered
    alternative, and a greedy [*] or [+] over a class. *)
Inductive regex : Type :=
| Lit (p : string)
| Cls (cl : cclass)
| Seq (a b : regex)
| Alt (a b : regex)
| Star (cl : cclass)
| Plus (cl : cclass).

(** Backtracking matcher in continuation-passing style: [k] is what remains
    of the pattern.  A greedy repetition first tries to take one more
    character and falls back to stopping here. *)
Fixpoint run_star (cl : cclass) (s : string)
    (k : string -> option string) : option string :=
  match s with
  | String c s' =>
      if in_class cl c
      then match run_star cl s' k with
           | Some r => Some r
           | None => k s
           end
      else k s
  | EmptyString => k s
  end.

Fixpoint run (r : regex) (s : string)
    (k : string -> option string) : option string :=
  match r with
  | Lit p =>
      match strip_prefix p s with
      | Some s' => k s'
      | None => None
      end
  | Cls cl =>
      match s with
      | String c s' => if in_class cl c then k s' else None
      | EmptyString => None
      end
  | Seq a b => run a s (fun s' => run b s' k)
  | Alt a b =>
      match run a s k with
      | Some x => Some x
      | None => run b s k
      end
  | Star cl => run_star cl s k
  | Plus cl =>
      match s with
      | String c s' => if in_class cl c then run_star cl s' k else None
      | EmptyString => None
      end
  end.

(** [pattern.match(s)]: the length of the match anchored at the start of
    [s], if any. *)
Definition re_match (r : regex) (s : string) : option nat :=
  match run r s Some with
  | Some rest => Some (len s - len rest)
  | None => None
  end.

(** [re.sub]: scan from the left, replace each match by [rep] and resume
    after it.  [skip] counts the characters of the current match that are
    still to be dropped.  None of the notebook's patterns matches the empty
    string, so an empty match is treated as no match. *)
Fixpoint sub_aux (r : regex) (rep : string) (skip : nat) (s : string)
    : string :=
  match s with
  | EmptyString => EmptyString
  | String c s' =>
      match skip with
      | S k => sub_aux r rep k s'
      | O =>
          match re_match r s with
          | Some (S k) => rep +:+ sub_aux r rep k s'
          | _ => String c (sub_aux r rep 0 s')
          end
      end
  end.

Definition re_sub (r : regex) (rep s : string) : string := sub_aux r rep 0 s.

(** [re.split] for a pattern without groups: the pieces between matches,
    empty pieces included. *)
Fixpoint split_aux (r : regex) (skip : nat) (cur s : string) : list string :=
  match s with
  | EmptyString => [cur]
  | String c s' =>
      match skip with
      | S k => split_aux r k cur s'
      | O =>
          match re_match r s with
          | Some (S k) => cur :: split_aux r k EmptyString s'
          | _ => split_aux r 0 (cur +:+ String c EmptyString) s'
          end
      end
  end.

Definition re_split (r : regex) (s : string) : list string :=
  split_aux r 0 EmptyString s.

End Re.

(** ** processMail *)

Module Mail.
Import Py Re.

Definition LF : ascii := ascii_of_N 10.
Definition CR : ascii := ascii_of_N 13.
Definition DQUOTE : ascii := ascii_of_N 34.

(** [chr(10) + chr(10)] *)
Definition blank_line : string := String LF (String LF EmptyString).

(** ['<[^<>]+>'] *)
Definition html_re : regex :=
  Seq (Lit "<") (Seq (Plus (ncls [Chr "<"; Chr ">"])) (Lit ">")).

(** ['[0-9]+'] *)
Definition number_re : regex := Plus (cls [Rng "0" "9"]).

(** ['(http|https)://[^\s]*'] *)
Definition url_re : regex :=
  Seq (Alt (Lit "http") (Lit "https")) (Seq (Lit "://") (Star (ncls [Space]))).

(** ['[^\s]+@[^\s]+'] *)
Definition email_re : regex :=
  Seq (Plus (ncls [Space])) (Seq (Lit "@") (Plus (ncls [Space]))).

(** ['[$]+'] *)
Definition dollar_re : regex := Plus (cls [Chr "$"]).

(** The bracket expression of the split pattern.  The source writes it as
    two adjacent string literals: the two single quotes after the comma end
    one literal and start the next, Python concatenates the two, and no
    single quote is part of the pattern.  Inside the brackets [.-:] is the
    range from [.] to [:], so the hyphen is no member either.  The double
    quote is written by its code, 34. *)
Definition split_items : list citem :=
  [ Chr " "; Chr "@"; Chr "$"; Chr "/"; Chr "#"; Rng "." ":"; Chr "&";
    Chr "*"; Chr "+"; Chr "="; Chr "["; Chr "]"; Chr "?"; Chr "!"; Chr "(";
    Chr ")"; Chr "{"; Chr "}"; Chr ","; Chr DQUOTE; Chr ">"; Chr "_"; Chr "<";
    Chr ";"; Chr "%"; Chr LF; Chr CR ].

Definition split_re : regex := Cls (cls split_items).

(** ['[^a-zA-Z0-9]'] *)
Definition junk_re : regex :=
  Cls (ncls [Rng "a" "z"; Rng "A" "Z"; Rng "0" "9"]).

(** The header step: [hdrstart = mail.find(chr(10) + chr(10))] and
    [mail = mail[hdrstart:]]. *)
Definition strip_headers (mail : string) : string :=
  let hdrstart := find blank_line mail in
  slice_from hdrstart mail.

(** The four placeholder substitutions, in the source's order. *)
Definition placeholders (mail : string) : string :=
  let mail := re_sub number_re " number " mail in
  let mail := re_sub url_re " httpaddr " mail in
  let mail := re_sub email_re " emailaddr " mail in
  let mail := re_sub dollar_re " dollar " mail in
  mail.

(** Everything before the split. *)
Definition normalize (mail : string) : string :=
  let mail := strip_headers mail in
  let mail := lower mail in
  let mail := re_sub html_re " " mail in
  placeholders mail.

Definition tokenize (mail : string) : list string := re_split split_re mail.

Definition clean_word (word : string) : string :=
  strip (re_sub junk_re EmptyString word).

Section WithStemmer.

(** [PorterStemmer().stem], from NLTK. *)
Variable stem : string -> string.

(** The loop over the split words; [clean_mail] is the list built so far. *)
Fixpoint stem_loop (words : list string) (clean_mail : list string)
    : list string :=
  match words with
  | [] => clean_mail
  | word :: rest =>
      let word := clean_word word in
      if Nat.eqb (len word) 0
      then stem_loop rest clean_mail
      else stem_loop rest (clean_mail ++ [stem word])
  end.

Definition processMail (mail : string) : list string :=
  stem_loop (tokenize (normalize mail)) [].

End WithStemmer.

End Mail.

(** ** createVocabulary *)

Module Vocab.

(** A Python [dict] from words to counts.  A [dict] iterates in insertion
    order and assigning to a key that is present keeps its place, so it is an
    association list with distinct keys. *)
Abbreviation dict := (list (string * nat)).

(** [d[word]], [None] for [KeyError]. *)
Fixpoint dict_get (d : dict) (word : string) : option nat :=
  match d with
  | [] => None
  | (w, c) :: d' => if String.eqb w word then Some c else dict_get d' word
  end.

(** [d[word] = v] *)
Fixpoint dict_set (d : dict) (word : string) (v : nat) : dict :=
  match d with
  | [] => [(word, v)]
  | (w, c) :: d' =>
      if String.eqb w word then (w, v) :: d' else (w, c) :: dict_set d' word v
  end.

(** The body of the counting loop: [d[word] += 1], and [d[word] = 1] when
    that raises. *)
Definition count_word (d : dict) (word : string) : dict :=
  match dict_get d word with
  | Some c => dict_set d word (c + 1)
  | None => dict_set d word 1
  end.

Definition count_mail (d : dict) (mail : list string) : dict :=
  fold_left count_word mail d.

(** The dictionary after the two nested loops, started from [{}]. *)
Definition all_words_w_count (mails : list (list string)) : dict :=
  fold_left count_mail mails [].

(** [sorted(items, key=lambda item: item[1], reverse=True)].  Python's sort
    is stable, also with [reverse=True]: items with equal counts keep the
    order they have in [items].  [insert_desc] puts an item in front of the
    first item whose count is not greater. *)
Fixpoint insert_desc (x : string * nat) (l : list (string * nat))
    : list (string * nat) :=
  match l with
  | [] => [x]
  | y :: l' => if (y.2 <=? x.2)%nat then x :: l else y :: insert_desc x l'
  end.

Definition sorted_desc (items : list (string * nat)) : list (string * nat) :=
  foldr insert_desc [] items.

(** [l[:size]]: a negative [size] counts from the end. *)
Definition slice_to {A} (size : Z) (l : list A) : list A :=
  let n := Z.of_nat (length l) in
  let stop := if (size <? 0)%Z then Z.max 0 (n + size) else Z.min size n in
  take (Z.to_nat stop) l.

Definition sorted_words (mails : list (list string)) : list string :=
  (sorted_desc (all_words_w_count mails)).*1.

Definition createVocabulary (mails : list (list string)) (size : Z)
    : list string :=
  slice_to size (sorted_words mails).

End Vocab.

(** ** getFeatureMatrix *)

Module Features.

(** A NumPy array of shape (m, n), as the list of its rows. *)
Abbreviation matrix := (list (list nat)).

(** [np.zeros((m, n))] *)
Definition zeros (m n : nat) : matrix := replicate m (replicate n 0).

(** [X[i, j] = v], for indices inside the shape; the loops below never
    leave it. *)
Definition set_entry (X : matrix) (i j v : nat) : matrix :=
  alter (fun row => <[j := v]> row) i X.

(** [word in mail], stored into a float array: 1 for [True]. *)
Definition contains (mail : list string) (word : string) : nat :=
  if bool_decide (word ∈ mail) then 1 else 0.

(** The inner loop, [for j, word in enumerate(vocab)], from column [j]. *)
Fixpoint fill_row (mail : list string) (i j : nat) (vocab : list string)
    (X : matrix) : matrix :=
  match vocab with
  | [] => X
  | word :: rest =>
      fill_row mail i (S j) rest (set_entry X i j (contains mail word))
  end.

(** The outer loop, [for i, mail in enumerate(mails)], from row [i]. *)
Fixpoint fill_rows (i : nat) (mails : list (list string))
    (vocab : list string) (X : matrix) : matrix :=
  match mails with
  | [] => X
  | mail :: rest => fill_rows (S i) rest vocab (fill_row mail i 0 vocab X)
  end.

Definition getFeatureMatrix (mails : list (list string))
    (vocab : list string) : matrix :=
  let m := length mails in
  let n := length vocab in
  let X := zeros m n in
  fill_rows 0 mails vocab X.

End Features.

(** ** predictSamples *)

Module Predict.
Import Mail Features.

(** What a call does that its caller can observe. *)
Inductive event : Type :=
| Opened (filename : string)
| Vectorized (clean_mails : list (list string))
| Predicted (X : matrix)
| Printed (line : string).

(** How the call ends: it returns, or an exception escapes. *)
Inductive outcome : Type :=
| Returned
| IndexError.

(** The state the notebook keeps in globals and on disk.  [None] stands for
    a file that cannot be opened or read, for a global name that was never
    assigned, and for a [predict] that raises. *)
Record world : Type := {
  read_sample : string -> option string;
  vocabulary : option (list string);
  clf : option (matrix -> option (list nat))
}.

Definition could_not_read (filename : string) : string :=
  "Could not read " +:+ filename +:+ ".".
Definition is_spam (filename : string) : string := filename +:+ " is spam.".
Definition is_not_spam (filename : string) : string :=
  filename +:+ " is not spam.".
Definition nothing_to_predict : string := "Nothing to predict.".
Definition no_vocabulary : string := "No vocabulary has been created.".
Definition no_model : string := "No model has been trained.".

Section WithWorld.

Variable stem : string -> string.
Variable W : world.

(** The reading loop.  [clean_mails] and [out] are the list and the trace so
    far; a file that cannot be read is reported and skipped. *)
Fixpoint read_loop (filenames : list string)
    (clean_mails : list (list string)) (out : list event)
    : list (list string) * list event :=
  match filenames with
  | [] => (clean_mails, out)
  | filename :: rest =>
      match read_sample W filename with
      | None =>
          read_loop rest clean_mails
            (out ++ [Opened filename; Printed (could_not_read filename)])
      | Some mail_contents =>
          let clean_mail := processMail stem mail_contents in
          read_loop rest (clean_mails ++ [clean_mail])
            (out ++ [Opened filename])
      end
  end.

(** The output loop, [for i, pred in enumerate(predictions)], from [i]. *)
Fixpoint print_loop (filenames : list string) (i : nat)
    (predictions : list nat) (out : list event) : list event * outcome :=
  match predictions with
  | [] => (out, Returned)
  | pred :: rest =>
      match filenames !! i with
      | None => (out, IndexError)
      | Some name =>
          let line := if Nat.eqb pred 0 then is_not_spam name
                      else is_spam name in
          print_loop filenames (S i) rest (out ++ [Printed line])
      end
  end.

Definition predictSamples (filenames : list string) : list event * outcome :=
  match filenames with
  | [] => ([Printed nothing_to_predict], Returned)
  | _ :: _ =>
      let '(clean_mails, out) := read_loop filenames [] [] in
      match vocabulary W with
      | None => (out ++ [Printed no_vocabulary], Returned)
      | Some vocab =>
          let X := getFeatureMatrix clean_mails vocab in
          let out := out ++ [Vectorized clean_mails] in
          match clf W with
          | None => (out ++ [Printed no_model], Returned)
          | Some predict =>
              match predict X with
              | None => (out ++ [Predicted X; Printed no_model], Returned)
              | Some predictions =>
                  print_loop filenames 0 predictions (out ++ [Predicted X])
              end
          end
      end
  end.

End WithWorld.

End Predict.

(** ** Loading the data (the cell under "Loading data") *)

Module Load.
Import Py Mail.

(** The directory [data/spamassassin] as [os.listdir] shows it: the
    sub-directories in listing order, each with the listing of its files; a
    file comes with its text, or with [None] when opening or reading it
    raises. *)
Abbreviation folder := (list (string * option string)).
Abbreviation dataset := (list (string * list (string * option string))).

(** ['spam' in sub_dir_name]: the substring test. *)
Definition is_spam (sub_dir_name : string) : bool :=
  (0 <=? find "spam" sub_dir_name)%Z.

Section WithStemmer.

Variable stem : string -> string.

(** The inner loop, [for mail_id in os.listdir(sub_dir)]: a file that
    cannot be read is skipped by the [except: continue]. *)
Fixpoint load_dir (spam : bool) (mail_ids : list (string * option string))
    (clean_mails : list (list string)) (labels : list nat)
    : list (list string) * list nat :=
  match mail_ids with
  | [] => (clean_mails, labels)
  | (mail_id, None) :: rest => load_dir spam rest clean_mails labels
  | (mail_id, Some mail_contents) :: rest =>
      let clean_mail := processMail stem mail_contents in
      load_dir spam rest (clean_mails ++ [clean_mail])
        (labels ++ [Nat.b2n spam])
  end.

(** The outer loop, [for sub_dir_name in os.listdir(data_dir)]. *)
Fixpoint load_dirs (data : list (string * list (string * option string)))
    (clean_mails : list (list string)) (labels : list nat)
    : list (list string) * list nat :=
  match data with
  | [] => (clean_mails, labels)
  | (sub_dir_name, mail_ids) :: rest =>
      let spam := is_spam sub_dir_name in
      let '(clean_mails, labels) :=
        load_dir spam mail_ids clean_mails labels in
      load_dirs rest clean_mails labels
  end.

(** The cell: both lists start empty. *)
Definition load_data (data : list (string * list (string * option string)))
    : list (list string) * list nat :=
  load_dirs data [] [].

End WithStemmer.

End Load.

(** ** Model variables and the train / validation split *)

Module Train.
Import Vocab Features.

Definition VOCAB_SIZE : Z := 4000.

(** The cell under "Model variables": [vocabulary], [X] and [y]. *)
Definition model_variables (clean_mails : list (list string))
    (labels : list nat) : list string * matrix * list nat :=
  let vocabulary := createVocabulary clean_mails VOCAB_SIZE in
  let X := getFeatureMatrix clean_mails vocabulary in
  let y := labels in
  (vocabulary, X, y).

(** [a[rand_indices]] for an array of rows and non-negative indices, [None]
    for [IndexError]. *)
Fixpoint take_rows {A} (a : list A) (rand_indices : list nat)
    : option (list A) :=
  match rand_indices with
  | [] => Some []
  | i :: rest =>
      match a !! i, take_rows a rest with
      | Some row, Some rows => Some (row :: rows)
      | _, _ => None
      end
  end.

(** The rows of [a] that [np.delete] keeps, [i] being the index of the
    first row of [a]. *)
Fixpoint delete_from {A} (i : nat) (rand_indices : list nat) (a : list A)
    : list A :=
  match a with
  | [] => []
  | row :: a' =>
      if bool_decide (i ∈ rand_indices)
      then delete_from (S i) rand_indices a'
      else row :: delete_from (S i) rand_indices a'
  end.

(** [np.delete(a, rand_indices, axis=0)], [None] for [IndexError]. *)
Definition delete_rows {A} (a : list A) (rand_indices : list nat)
    : option (list A) :=
  if forallb (λ i, i <? length a) rand_indices
  then Some (delete_from 0 rand_indices a)
  else None.

(** The cell under "Train / Cross-Validation set split", from the indices
    that [np.random.choice(m, mval, replace=False)] drew: the validation
    pair [(Xval, yval)] and the new [(X, y)]. *)
Definition train_validation_split (X : matrix) (y : list nat)
    (rand_indices : list nat)
    : option ((matrix * list nat) * (matrix * list nat)) :=
  match take_rows X rand_indices, take_rows y rand_indices,
        delete_rows X rand_indices, delete_rows y rand_indices with
  | Some Xval, Some yval, Some X', Some y' => Some ((Xval, yval), (X', y'))
  | _, _, _, _ => None
  end.

End Train.

(** * Notions used to state the properties *)

Module Spec.
Import Py Re Mail.

(** Every character of [s] satisfies [P]. *)
Fixpoint str_all (P : ascii → Prop) (s : string) : Prop :=
  match s with
  | EmptyString => True
  | String c s' => P c ∧ str_all P s'
  end.

(** The words a pattern denotes, independently of the matcher. *)
Fixpoint Matches (r : regex) (w : string) : Prop :=
  match r with
  | Lit p => w = p
  | Cls cl => ∃ c, in_class cl c = true ∧ w = String c EmptyString
  | Seq a b => ∃ u v, w = u +:+ v ∧ Matches a u ∧ Matches b v
  | Alt a b => Matches a w ∨ Matches b w
  | Star cl => str_all (λ c, in_class cl c = true) w
  | Plus cl => w ≠ EmptyString ∧ str_all (λ c, in_class cl c = true) w
  end.

(** The pattern may match the empty string. *)
Fixpoint nullable (r : regex) : bool :=
  match r with
  | Lit p => Nat.eqb (len p) 0
  | Cls _ => false
  | Seq a b => nullable a && nullable b
  | Alt a b => nullable a || nullable b
  | Star _ => true
  | Plus _ => false
  end.

(** The pattern consumes no whitespace. *)
Fixpoint spacefree (r : regex) : Prop :=
  match r with
  | Lit p => str_all (λ c, isspace c = false) p
  | Cls cl | Star cl | Plus cl =>
      ∀ c, in_class cl c = true → isspace c = false
  | Seq a b | Alt a b => spacefree a ∧ spacefree b
  end.

(** The pattern has a (non-empty) match at the start of [s]. *)
Definition hitb (r : regex) (s : string) : bool :=
  match re_match r s with
  | Some (S _) => true
  | _ => false
  end.

(** The pattern has no match at any position of [s]. *)
Fixpoint freeb (r : regex) (s : string) : bool :=
  negb (hitb r s)
  && match s with
     | EmptyString => true
     | String _ s' => freeb r s'
     end.

(** [P] holds of [s] and of every suffix of [s]. *)
Fixpoint on_suffixes (P : string → Prop) (s : string) : Prop :=
  P s
  ∧ match s with
    | EmptyString => True
    | String _ s' => on_suffixes P s'
    end.

(** [o] agrees with [s] up to the first whitespace of [o]. *)
Fixpoint cut (o s : string) : Prop :=
  match o with
  | EmptyString => True
  | String c o' =>
      isspace c = true
      ∨ match s with
        | String d s' => c = d ∧ cut o' s'
        | EmptyString => False
        end
  end.

Definition lower_or_digit (c : ascii) : bool :=
  between "a" "z" c || between "0" "9" c.

(** A token: not empty, lowercase ASCII letters and digits only. *)
Definition token_ok (w : string) : Prop :=
  w ≠ EmptyString ∧ str_all (λ c, lower_or_digit c = true) w.

(** [sub] occurs somewhere in [s]. *)
Definition occurs (sub s : string) : Prop := ∃ a b, s = a +:+ sub +:+ b.

(** The header step as the specification words it: what follows the first
    blank line, and the whole text when there is none. *)
Fixpoint after_blank_line (mail : string) : option string :=
  match strip_prefix blank_line mail with
  | Some body => Some body
  | None =>
      match mail with
      | EmptyString => None
      | String _ mail' => after_blank_line mail'
      end
  end.

Definition strip_headers_spec (mail : string) : string :=
  match after_blank_line mail with
  | Some body => body
  | None => mail
  end.

(** How often [word] occurs in a list of words. *)
Definition occurrences (word : string) (l : list string) : nat :=
  length (filter (λ w, w = word) l).

(** The count a dictionary holds for [word], 0 when it has none. *)
Definition cnt (d : Vocab.dict) (word : string) : nat :=
  default 0 (Vocab.dict_get d word).

(** [x] stands at an earlier position of [l] than [y]. *)
Definition before {A} (x y : A) (l : list A) : Prop :=
  ∃ l1 l2 l3, l = l1 ++ x :: l2 ++ y :: l3.

(** The delimiter set as the specification lists it: the space, the
    characters @ $ / # . - : & * + = [ ] ? ! ( ) { } , the two quotes,
    < > _ ; %, newline and carriage return. *)
Definition spec_split_items : list citem :=
  [ Chr " "; Chr "@"; Chr "$"; Chr "/"; Chr "#"; Chr "."; Chr "-"; Chr ":";
    Chr "&"; Chr "*"; Chr "+"; Chr "="; Chr "["; Chr "]"; Chr "?"; Chr "!";
    Chr "("; Chr ")"; Chr "{"; Chr "}"; Chr ","; Chr DQUOTE; Chr "'";
    Chr "<"; Chr ">"; Chr "_"; Chr ";"; Chr "%"; Chr LF; Chr CR ].

(** A small world to run [predictSamples] in: one readable sample, a
    three-word vocabulary, and a classifier that calls a message spam when
    it holds the first vocabulary word. *)
Definition sample_world : Predict.world := {|
  Predict.read_sample := λ filename,
    if String.eqb filename "offer.txt"
    then Some (blank_line +:+ "Buy cheap meds now")
    else None;
  Predict.vocabulary := Some ["cheap"; "med"; "meet"];
  Predict.clf := Some (λ X,
    Some ((λ row, match row with 1 :: _ => 1 | _ => 0 end) <$> X))
|}.

(** The same world before the vocabulary is built, and before the model is
    trained. *)
Definition world_without_vocabulary : Predict.world := {|
  Predict.read_sample := Predict.read_sample sample_world;
  Predict.vocabulary := None;
  Predict.clf := None
|}.

Definition world_without_model : Predict.world := {|
  Predict.read_sample := Predict.read_sample sample_world;
  Predict.vocabulary := Predict.vocabulary sample_world;
  Predict.clf := None
|}.

(** The characters of [s] that satisfy [P], in order. *)
Fixpoint str_filter (P : ascii → bool) (s : string) : string :=
  match s with
  | EmptyString => EmptyString
  | String c s' => if P c then String c (str_filter P s') else str_filter P s'
  end.

(** The number of characters of [s] that satisfy [P]. *)
Fixpoint str_count (P : ascii → bool) (s : string) : nat :=
  match s with
  | EmptyString => 0
  | String c s' => (if P c then 1 else 0) + str_count P s'
  end.

(** The strings of a list, one after the other. *)
Fixpoint str_concat (l : list string) : string :=
  match l with
  | [] => EmptyString
  | s :: l' => s +:+ str_concat l'
  end.

(** The text with its letters A to Z in lowercase, one character for one,
    and every other character as it is. *)
Definition ascii_lower_char (c : ascii) : ascii :=
  if isupper c then ascii_of_N (code c + 32) else c.

Fixpoint ascii_lower (s : string) : string :=
  match s with
  | EmptyString => EmptyString
  | String c s' => String (ascii_lower_char c) (ascii_lower s')
  end.

(** An ASCII letter or digit. *)
Definition alnum (c : ascii) : bool :=
  between "a" "z" c || between "A" "Z" c || between "0" "9" c.

(** A split point of [tokenize]. *)
Definition delimiter (c : ascii) : bool := in_class (cls split_items) c.

(** The files a trace opens, and the lines it prints, in order. *)
Definition opened (trace : list Predict.event) : list string :=
  omap (λ e, match e with Predict.Opened f => Some f | _ => None end) trace.

Definition printed (trace : list Predict.event) : list string :=
  omap (λ e, match e with Predict.Printed l => Some l | _ => None end) trace.

(** The line [predictSamples] prints for a name and a prediction. *)
Definition result_line (name : string) (pred : nat) : string :=
  if Nat.eqb pred 0 then Predict.is_not_spam name else Predict.is_spam name.

(** What the reading loop of [predictSamples] does for one file. *)
Definition read_events (W : Predict.world) (filename : string)
    : list Predict.event :=
  match Predict.read_sample W filename with
  | None => [Predict.Opened filename;
             Predict.Printed (Predict.could_not_read filename)]
  | Some _ => [Predict.Opened filename]
  end.

(** The sample world with a classifier that raises on a matrix without
    rows. *)
Definition strict_world : Predict.world := {|
  Predict.read_sample := Predict.read_sample sample_world;
  Predict.vocabulary := Predict.vocabulary sample_world;
  Predict.clf := Some (λ X,
    match X with
    | [] => None
    | _ => Some ((λ row, match row with 1 :: _ => 1 | _ => 0 end) <$> X)
    end)
|}.

(** The messages and labels the loading cell is to produce: for every
    sub-directory in listing order and every file of it that can be read,
    the tokens of the file and the label of the sub-directory. *)
Definition labelled_mails (stem : string → string)
    (data : list (string * list (string * option string)))
    : list (list string * nat) :=
  concat ((λ d : string * list (string * option string),
             (λ text, (processMail stem text, Nat.b2n (Load.is_spam d.1)))
             <$> omap snd d.2) <$> data).

End Spec.

(** * Proof automation *)

(** Membership in a trace built with [++] and [::]. *)
Ltac in_trace :=
  repeat (rewrite elem_of_app in * || rewrite elem_of_cons in *
          || rewrite elem_of_nil in * );
  naive_solver.

(** A fact about one character, checked on all 256 of them. *)
Ltac by_chars c :=
  destruct c as [[] [] [] [] [] [] [] []]; vm_compute; congruence.

(** * Properties *)

(** ** predictSamples *)

Module PredictFacts.
Import Mail Features Predict Spec.

Lemma print_loop_keeps filenames i predictions out e :
  e ∈ out → e ∈ (print_loop filenames i predictions out).1.
Proof.
  revert i out.
  induction predictions as [|p rest IH]; intros i out He; simpl; [done|].
  destruct (filenames !! i); [|done]. apply IH. in_trace.
Qed.

Section WithWorld.

Variable stem : string -> string.
Variable W : world.

Lemma read_loop_keeps filenames clean_mails out e :
  e ∈ out → e ∈ (read_loop stem W filenames clean_mails out).2.
Proof.
  revert clean_mails out.
  induction filenames as [|f rest IH]; intros cm out He; simpl; [done|].
  destruct (read_sample W f); apply IH; in_trace.
Qed.

Lemma read_loop_reports filenames clean_mails out f :
  f ∈ filenames → read_sample W f = None →
  Printed (could_not_read f)
    ∈ (read_loop stem W filenames clean_mails out).2.
Proof.
  revert clean_mails out.
  induction filenames as [|g rest IH]; intros cm out Hin Hf.
  - by apply elem_of_nil in Hin.
  - apply elem_of_cons in Hin as [->|Hin]; simpl.
    + rewrite Hf. apply read_loop_keeps. in_trace.
    + destruct (read_sample W g); by apply IH.
Qed.

(** The reading loop adds nothing but [Opened] events and
    could-not-read lines. *)
Lemma read_loop_events filenames clean_mails out e :
  e ∈ (read_loop stem W filenames clean_mails out).2 →
  e ∈ out ∨ (∃ f, e = Opened f) ∨ (∃ f, e = Printed (could_not_read f)).
Proof.
  revert clean_mails out.
  induction filenames as [|g rest IH]; intros cm out; simpl; [by left|].
  destruct (read_sample W g); intros He; apply IH in He;
    in_trace.
Qed.

(** The cleaned mails are those of the files that could be read, in the
    order of [filenames]. *)
Lemma read_loop_mails filenames clean_mails out :
  (read_loop stem W filenames clean_mails out).1
  = clean_mails ++ (processMail stem <$> omap (read_sample W) filenames).
Proof.
  revert clean_mails out.
  induction filenames as [|f rest IH]; intros cm out; simpl.
  - by rewrite app_nil_r.
  - destruct (read_sample W f); simpl; rewrite IH; [|done].
    by rewrite <- app_assoc.
Qed.

End WithWorld.

Lemma could_not_read_head f :
  ∃ t, could_not_read f = String "C" t.
Proof. by eexists. Qed.

(** C9: an empty list of filenames is reported as a no-op: the call prints
    the one line [Nothing to predict.] and returns; its trace holds no file
    access, no vectorization and no classifier call. *)
Theorem predictSamples_empty_batch stem W :
  predictSamples stem W [] = ([Printed "Nothing to predict."], Returned).
Proof. reflexivity. Qed.

(** C1, at the input that breaks it: the first file cannot be read and the
    second can.  The one prediction, computed from the text of the second
    file, is printed under the name of the first, and nothing is printed for
    the second. *)
Theorem predictSamples_label_shifted stem W missing present text vocab
    predict label :
  read_sample W missing = None →
  read_sample W present = Some text →
  vocabulary W = Some vocab →
  clf W = Some predict →
  predict (getFeatureMatrix [processMail stem text] vocab) = Some [label] →
  predictSamples stem W [missing; present] =
    ([ Opened missing; Printed (could_not_read missing); Opened present;
       Vectorized [processMail stem text];
       Predicted (getFeatureMatrix [processMail stem text] vocab);
       Printed (if Nat.eqb label 0 then is_not_spam missing
                else is_spam missing) ],
     Returned).
Proof.
  intros Hm Hp Hv Hc Hl. unfold predictSamples. simpl.
  rewrite Hm, Hp, Hv, Hc. simpl. rewrite Hl. reflexivity.
Qed.

Lemma predictSamples_label_shifted_witness :
  predictSamples (λ w, w) sample_world ["missing.txt"; "offer.txt"] =
    ([ Opened "missing.txt"; Printed (could_not_read "missing.txt");
       Opened "offer.txt";
       Vectorized [processMail (λ w, w)
                     (blank_line +:+ "Buy cheap meds now")];
       Predicted (getFeatureMatrix
                    [processMail (λ w, w)
                       (blank_line +:+ "Buy cheap meds now")]
                    ["cheap"; "med"; "meet"]);
       Printed (if Nat.eqb 1 0 then is_not_spam "missing.txt"
                else is_spam "missing.txt") ],
     Returned).
Proof.
  apply (predictSamples_label_shifted (λ w, w) sample_world
           "missing.txt" "offer.txt" (blank_line +:+ "Buy cheap meds now")
           ["cheap"; "med"; "meet"]
           (λ X, Some ((λ row, match row with 1 :: _ => 1 | _ => 0 end)
                       <$> X))
           1); reflexivity.
Defined.

(** What does hold of the three reports: they are three different lines.
    A file that cannot be read gets its own could-not-read line; a missing
    vocabulary ends the call with the vocabulary line and never with the
    model line; a missing model (with the vocabulary present) ends it with
    the model line and never with the vocabulary line; and the three lines
    are pairwise different texts. *)
Theorem failure_reports_distinct stem W filenames :
  filenames ≠ [] →
  let trace := (predictSamples stem W filenames).1 in
  (∀ f, f ∈ filenames → read_sample W f = None →
        Printed (could_not_read f) ∈ trace)
  ∧ (vocabulary W = None →
       last trace = Some (Printed no_vocabulary)
       ∧ Printed no_model ∉ trace)
  ∧ (∀ vocab, vocabulary W = Some vocab → clf W = None →
       last trace = Some (Printed no_model)
       ∧ Printed no_vocabulary ∉ trace)
  ∧ no_vocabulary ≠ no_model
  ∧ (∀ f, could_not_read f ≠ no_vocabulary ∧ could_not_read f ≠ no_model).
Proof.
  intros Hne trace. subst trace.
  destruct filenames as [|f0 rest]; [done|].
  unfold predictSamples.
  destruct (read_loop stem W (f0 :: rest) [] []) as [cm out] eqn:Hrl.
  assert (Hout : out = (read_loop stem W (f0 :: rest) [] []).2)
    by (by rewrite Hrl).
  assert (Hplain : ∀ line, Printed line ∈ out → ∃ f, line = could_not_read f).
  { intros line Hin. rewrite Hout in Hin.
    apply read_loop_events in Hin as [Hin|[[f Hf]|[f Hf]]].
    - by apply elem_of_nil in Hin.
    - discriminate.
    - exists f. congruence. }
  assert (Hdiff : ∀ f, could_not_read f ≠ no_vocabulary
                       ∧ could_not_read f ≠ no_model).
  { intros f. destruct (could_not_read_head f) as [t ->].
    split; discriminate. }
  split; [|split; [|split; [|split]]].
  - intros f Hin Hf.
    assert (Printed (could_not_read f) ∈ out).
    { rewrite Hout. by apply read_loop_reports. }
    destruct (vocabulary W) as [vocab|]; simpl; [|in_trace].
    destruct (clf W) as [predict|]; simpl; [|in_trace].
    destruct (predict _); simpl; [|in_trace].
    apply print_loop_keeps. in_trace.
  - intros ->. simpl. split; [by rewrite last_snoc|].
    intros Hin. apply elem_of_app in Hin as [Hin|Hin].
    + apply Hplain in Hin as [f Hf]. by destruct (Hdiff f) as [_ []].
    + apply list_elem_of_singleton in Hin. discriminate.
  - intros vocab -> ->. simpl. split; [by rewrite last_snoc|].
    intros Hin. apply elem_of_app in Hin as [Hin|Hin].
    + apply elem_of_app in Hin as [Hin|Hin].
      * apply Hplain in Hin as [f Hf]. by destruct (Hdiff f) as [[] _].
      * apply list_elem_of_singleton in Hin. discriminate.
    + apply list_elem_of_singleton in Hin. discriminate.
  - discriminate.
  - exact Hdiff.
Qed.

Lemma failure_reports_distinct_witness :
  let trace :=
    (predictSamples (λ w, w) sample_world ["missing.txt"; "offer.txt"]).1 in
  (∀ f, f ∈ ["missing.txt"; "offer.txt"] →
        read_sample sample_world f = None →
        Printed (could_not_read f) ∈ trace)
  ∧ (vocabulary sample_world = None →
       last trace = Some (Printed no_vocabulary)
       ∧ Printed no_model ∉ trace)
  ∧ (∀ vocab, vocabulary sample_world = Some vocab →
       clf sample_world = None →
       last trace = Some (Printed no_model)
       ∧ Printed no_vocabulary ∉ trace)
  ∧ no_vocabulary ≠ no_model
  ∧ (∀ f, could_not_read f ≠ no_vocabulary ∧ could_not_read f ≠ no_model).
Proof.
  apply (failure_reports_distinct (λ w, w) sample_world
           ["missing.txt"; "offer.txt"]).
  discriminate.
Defined.

(** The two not-ready conditions, run. *)
Example predictSamples_without_vocabulary :
  predictSamples (λ w, w) world_without_vocabulary
    ["missing.txt"; "offer.txt"]
  = ([ Opened "missing.txt"; Printed "Could not read missing.txt.";
       Opened "offer.txt"; Printed "No vocabulary has been created." ],
     Returned).
Proof. reflexivity. Qed.

Example predictSamples_without_model :
  predictSamples (λ w, w) world_without_model ["missing.txt"; "offer.txt"]
  = ([ Opened "missing.txt"; Printed "Could not read missing.txt.";
       Opened "offer.txt"; Vectorized [["buy"; "cheap"; "meds"; "now"]];
       Printed "No model has been trained." ],
     Returned).
Proof. reflexivity. Qed.

End PredictFacts.

(** ** getFeatureMatrix *)

Module FeatureFacts.
Import Features.

Lemma set_entry_insert (X : matrix) i j v row :
  X !! i = Some row → set_entry X i j v = <[i := <[j := v]> row]> X.
Proof.
  unfold set_entry. revert i.
  induction X as [|r X IH]; intros [|i] Hrow; simplify_eq/=; [done|].
  f_equal. by apply IH.
Qed.

(** The inner loop, started at column [j] on a row of the right length,
    leaves the first [j] entries and writes the membership bits after
    them. *)
Lemma fill_row_spec mail i vocab :
  ∀ j (X : matrix) row,
    X !! i = Some row → length row = j + length vocab →
    fill_row mail i j vocab X
    = <[i := take j row ++ (contains mail <$> vocab)]> X.
Proof.
  induction vocab as [|word rest IH]; intros j X row Hrow Hlen; simpl in *.
  - rewrite app_nil_r, take_ge by lia. symmetry. by apply list_insert_id.
  - assert (Hi : i < length X) by (by eapply lookup_lt_Some).
    assert (Hj : j < length row) by lia.
    rewrite (set_entry_insert X i j _ row Hrow).
    rewrite (IH (S j) _ (<[j := contains mail word]> row)).
    + rewrite list_insert_insert_eq. f_equal.
      rewrite (take_S_r _ j (contains mail word))
        by (by apply list_lookup_insert_eq).
      rewrite take_insert_ge by lia. by rewrite <- app_assoc.
    + by apply list_lookup_insert_eq.
    + rewrite length_insert. lia.
Qed.

(** The outer loop, started at row [i] on a matrix whose rows from [i] on
    are still zero, leaves the first [i] rows and writes one row per mail
    after them. *)
Lemma fill_rows_spec vocab :
  ∀ mails i (X : matrix),
    length X = i + length mails →
    (∀ k, i ≤ k → k < length X →
          X !! k = Some (replicate (length vocab) 0)) →
    fill_rows i mails vocab X
    = take i X ++ ((λ mail, contains mail <$> vocab) <$> mails).
Proof.
  induction mails as [|mail rest IH]; intros i X Hlen Hzero; simpl in *.
  - by rewrite app_nil_r, take_ge by lia.
  - assert (Hi : i < length X) by lia.
    rewrite (fill_row_spec mail i vocab 0 X _ (Hzero i (le_n _) Hi))
      by (by rewrite length_replicate).
    rewrite take_0, app_nil_l.
    rewrite IH.
    + rewrite (take_S_r _ i (contains mail <$> vocab))
        by (by apply list_lookup_insert_eq).
      rewrite take_insert_ge by lia. by rewrite <- app_assoc.
    + rewrite length_insert. lia.
    + intros k Hk1 Hk2. rewrite length_insert in Hk2.
      rewrite list_lookup_insert_ne by lia. apply Hzero; lia.
Qed.

Lemma getFeatureMatrix_rows mails vocab :
  getFeatureMatrix mails vocab
  = (λ mail, contains mail <$> vocab) <$> mails.
Proof.
  unfold getFeatureMatrix, zeros.
  rewrite fill_rows_spec.
  - by rewrite take_0.
  - by rewrite length_replicate.
  - intros k _ Hk. rewrite length_replicate in Hk.
    by apply lookup_replicate_2.
Qed.

(** C5: the row of the feature matrix for a message has exactly one entry
    per vocabulary word, entry [j] is 1 when the [j]-th vocabulary word
    occurs in the message and 0 otherwise, and an empty message gets the
    all-zero row of the vocabulary's length. *)
Theorem getFeatureMatrix_row mails vocab i mail :
  mails !! i = Some mail →
  ∃ row,
    getFeatureMatrix mails vocab !! i = Some row
    ∧ length row = length vocab
    ∧ (∀ j word, vocab !! j = Some word →
         row !! j = Some (if bool_decide (word ∈ mail) then 1 else 0))
    ∧ (mail = [] → row = replicate (length vocab) 0).
Proof.
  intros Hmail. exists (contains mail <$> vocab).
  rewrite getFeatureMatrix_rows. split; [|split; [|split]].
  - by rewrite list_lookup_fmap, Hmail.
  - by rewrite length_fmap.
  - intros j word Hword. by rewrite list_lookup_fmap, Hword.
  - intros ->. apply const_fmap. intros j word _. unfold contains.
    rewrite bool_decide_eq_false_2; [done|]. apply not_elem_of_nil.
Qed.

Lemma getFeatureMatrix_row_witness :
  ∃ row,
    getFeatureMatrix [["buy"; "cheap"; "med"]; []; ["meet"; "note"]]
                     ["cheap"; "note"; "buy"] !! 0 = Some row
    ∧ length row = 3
    ∧ (∀ j word, ["cheap"; "note"; "buy"] !! j = Some word →
         row !! j
         = Some (if bool_decide (word ∈ ["buy"; "cheap"; "med"])
                 then 1 else 0))
    ∧ (["buy"; "cheap"; "med"] = [] → row = replicate 3 0).
Proof.
  apply (getFeatureMatrix_row
           [["buy"; "cheap"; "med"]; []; ["meet"; "note"]]
           ["cheap"; "note"; "buy"] 0 ["buy"; "cheap"; "med"]).
  reflexivity.
Defined.

End FeatureFacts.

(** ** Strings *)

Module StrFacts.
Import Py.

Lemma app_nil_r_str s : s +:+ "" = s.
Proof. induction s; simpl; congruence. Qed.

Lemma app_assoc_str a b c : (a +:+ b) +:+ c = a +:+ b +:+ c.
Proof. induction a; simpl; congruence. Qed.

Lemma len_app a b : len (a +:+ b) = len a + len b.
Proof. unfold len. induction a; simpl; congruence. Qed.

Lemma drop_str_app a b : drop_str (len a) (a +:+ b) = b.
Proof. induction a; simpl; [by destruct b|done]. Qed.

Lemma drop_str_len n s : len (drop_str n s) = len s - n.
Proof.
  revert s. induction n as [|n IH]; intros [|c s]; simpl; try done.
Qed.

Lemma strip_prefix_app p t : strip_prefix p (p +:+ t) = Some t.
Proof.
  induction p as [|a p IH]; simpl; [by destruct t|].
  by rewrite Ascii.eqb_refl.
Qed.

Lemma strip_prefix_Some p s t : strip_prefix p s = Some t → s = p +:+ t.
Proof.
  revert s. induction p as [|a p IH]; intros s; simpl.
  - destruct s; congruence.
  - destruct s as [|b s]; [done|].
    destruct (Ascii.eqb_spec a b) as [->|]; [|done].
    intros H. by rewrite (IH _ H).
Qed.

End StrFacts.

(** ** The matcher against the meaning of patterns *)

Module ReFacts.
Import Py Re Spec StrFacts.

Lemma str_all_app P a b : str_all P (a +:+ b) ↔ str_all P a ∧ str_all P b.
Proof. induction a as [|c a IH]; simpl; [tauto|]. rewrite IH. tauto. Qed.

Lemma str_all_impl (P Q : ascii → Prop) s :
  (∀ c, P c → Q c) → str_all P s → str_all Q s.
Proof. intros HPQ. induction s; simpl; [done|]. intros []. auto. Qed.

Lemma run_star_sound cl s k x :
  run_star cl s k = Some x →
  ∃ w t, s = w +:+ t ∧ str_all (λ c, in_class cl c = true) w ∧ k t = Some x.
Proof.
  induction s as [|c s IH]; simpl; intros H.
  - by exists "", "".
  - destruct (in_class cl c) eqn:Hc; [|by exists "", (String c s)].
    destruct (run_star cl s k) as [y|] eqn:Hr.
    + simplify_eq. destruct IH as (w & t & -> & Hw & Hk); [done|].
      by exists (String c w), t.
    + by exists "", (String c s).
Qed.

Lemma run_star_complete cl w t k x :
  str_all (λ c, in_class cl c = true) w → k t = Some x →
  is_Some (run_star cl (w +:+ t) k).
Proof.
  intros Hw Hk. induction w as [|c w IH]; simpl in *.
  - destruct t as [|c t]; simpl; [by eexists|].
    destruct (in_class cl c); [|by eexists].
    destruct (run_star cl t k); by eexists.
  - destruct Hw as [-> Hw]. destruct (IH Hw) as [y ->]. by eexists.
Qed.

Lemma run_sound r : ∀ s k x,
  run r s k = Some x → ∃ w t, s = w +:+ t ∧ Matches r w ∧ k t = Some x.
Proof.
  induction r as [p|cl|a IHa b IHb|a IHa b IHb|cl|cl]; intros s k x; simpl.
  - destruct (strip_prefix p s) as [t|] eqn:Hp; [|done].
    intros Hk. apply strip_prefix_Some in Hp. by exists p, t.
  - destruct s as [|c s]; [done|]. destruct (in_class cl c) eqn:Hc; [|done].
    intros Hk. exists (String c ""), s. eauto.
  - intros H. apply IHa in H as (u & t1 & -> & Hu & H).
    apply IHb in H as (v & t & -> & Hv & H).
    exists (u +:+ v), t. rewrite app_assoc_str. eauto 10.
  - destruct (run a s k) as [y|] eqn:Ha.
    + intros ?; simplify_eq. apply IHa in Ha as (w & t & -> & Hw & H).
      exists w, t. auto.
    + intros H. apply IHb in H as (w & t & -> & Hw & H). exists w, t. auto.
  - apply run_star_sound.
  - destruct s as [|c s]; [done|]. destruct (in_class cl c) eqn:Hc; [|done].
    intros H. apply run_star_sound in H as (w & t & -> & Hw & H).
    exists (String c w), t. simpl. auto.
Qed.

Lemma run_complete r : ∀ w t k x,
  Matches r w → k t = Some x → is_Some (run r (w +:+ t) k).
Proof.
  induction r as [p|cl|a IHa b IHb|a IHa b IHb|cl|cl]; intros w t k x; simpl.
  - intros -> Hk. rewrite strip_prefix_app. by eexists.
  - intros (c & Hc & ->) Hk. simpl. rewrite Hc. by eexists.
  - intros (u & v & -> & Hu & Hv) Hk. rewrite app_assoc_str.
    destruct (IHb v t k x Hv Hk) as [y Hy].
    by apply (IHa u (v +:+ t) _ y).
  - intros [Hw|Hw] Hk.
    + destruct (IHa w t k x Hw Hk) as [y ->]. by eexists.
    + destruct (run a (w +:+ t) k); [by eexists|]. by eapply IHb.
  - apply run_star_complete.
  - intros [Hne Hw] Hk. destruct w as [|c w]; [done|].
    simpl in *. destruct Hw as [-> Hw]. by eapply run_star_complete.
Qed.

Lemma nullable_sound r : Matches r "" → nullable r = true.
Proof.
  induction r as [p|cl|a IHa b IHb|a IHa b IHb|cl|cl]; simpl.
  - by intros <-.
  - by intros (c & _ & ?).
  - intros (u & v & Huv & Hu & Hv). destruct u; [|done]. destruct v; [|done].
    by rewrite IHa, IHb.
  - intros [H|H]; [rewrite IHa|rewrite IHb]; auto using orb_true_r.
  - done.
  - by intros [].
Qed.

Lemma spacefree_sound r w :
  spacefree r → Matches r w → str_all (λ c, isspace c = false) w.
Proof.
  revert w.
  induction r as [p|cl|a IHa b IHb|a IHa b IHb|cl|cl]; intros w; simpl.
  - by intros H ->.
  - intros H (c & Hc & ->). simpl. auto.
  - intros [Ha Hb] (u & v & -> & Hu & Hv). apply str_all_app. auto.
  - intros [Ha Hb] [Hw|Hw]; auto.
  - intros H. by apply str_all_impl.
  - intros H [_ Hw]. revert Hw. by apply str_all_impl.
Qed.

(** A hit is a split of the text into a non-empty word of the pattern and a
    rest. *)
Lemma hitb_true r s :
  nullable r = false →
  hitb r s = true ↔ ∃ w t, s = w +:+ t ∧ Matches r w.
Proof.
  intros Hnull. unfold hitb, re_match. split.
  - destruct (run r s Some) as [rest|] eqn:Hr; [|done].
    intros _. apply run_sound in Hr as (w & t & -> & Hw & _). eauto.
  - intros (w & t & -> & Hw).
    destruct (run_complete r w t Some t Hw eq_refl) as [rest Hr].
    rewrite Hr. apply run_sound in Hr as (w' & t' & Heq & Hw' & ?).
    simplify_eq. rewrite Heq, len_app.
    destruct w' as [|c w'].
    + apply nullable_sound in Hw'. congruence.
    + unfold len. simpl. by replace (S _ - _) with
        (S (String.length w')) by lia.
Qed.

Lemma hitb_nil r : hitb r "" = false.
Proof.
  unfold hitb, re_match. destruct (run r "" Some); [|done].
  by destruct (len "" - len s) eqn:E.
Qed.

Lemma cut_refl s : cut s s.
Proof. induction s; simpl; auto. Qed.

Lemma cut_prefix o s w t :
  cut o s → o = w +:+ t → str_all (λ c, isspace c = false) w →
  ∃ t', s = w +:+ t'.
Proof.
  revert o s. induction w as [|c w IH]; intros o s Hcut -> Hw; simpl in *.
  - by exists s.
  - destruct Hw as [Hc Hw]. destruct Hcut as [?|Hcut]; [congruence|].
    destruct s as [|d s]; [done|]. destruct Hcut as [<- Hcut].
    destruct (IH _ _ Hcut eq_refl Hw) as [t' ->]. by exists t'.
Qed.

(** A hit survives when the text is changed after its first whitespace. *)
Lemma hitb_cut r o s :
  nullable r = false → spacefree r → cut o s →
  hitb r o = true → hitb r s = true.
Proof.
  intros Hnull Hfree Hcut. rewrite !hitb_true by done.
  intros (w & t & Ho & Hw).
  destruct (cut_prefix o s w t Hcut Ho (spacefree_sound r w Hfree Hw))
    as [t' ->].
  eauto.
Qed.

Lemma no_hit_cut r o s :
  nullable r = false → spacefree r → cut o s →
  hitb r s = false → hitb r o = false.
Proof.
  intros Hnull Hfree Hcut Hs. destruct (hitb r o) eqn:Ho; [|done].
  apply (hitb_cut r o s) in Ho; [congruence|done..].
Qed.

Lemma cut_before_space a X : cut (a +:+ String " " X) (a +:+ " ").
Proof. induction a as [|c a IH]; simpl; auto. Qed.

(** *** Substitution *)

Lemma sub_aux_cut r rep s :
  (∃ rest, rep = String " " rest) → cut (sub_aux r rep 0 s) s.
Proof.
  intros [rest ->]. induction s as [|c s IH]; simpl; [done|].
  destruct (re_match r (String c s)) as [[|k]|]; simpl; auto.
Qed.

Lemma freeb_cons r c s :
  freeb r (String c s) = negb (hitb r (String c s)) && freeb r s.
Proof. done. Qed.

Lemma sub_free_id r rep s : freeb r s = true → re_sub r rep s = s.
Proof.
  unfold re_sub. induction s as [|c s IH]; [done|].
  rewrite freeb_cons. intros [Hhit Hs]%andb_true_iff.
  apply negb_true_iff in Hhit. unfold hitb in Hhit. simpl.
  destruct (re_match r (String c s)) as [[|k]|]; [|done|];
    by rewrite IH.
Qed.

(** A replacement that ends in a space and holds no match keeps a text
    free of matches when it is put in front of it. *)
Lemma freeb_rep q body X :
  nullable q = false → spacefree q →
  freeb q (body +:+ " ") = true → freeb q X = true →
  freeb q ((body +:+ " ") +:+ X) = true.
Proof.
  intros Hnull Hfree Hrep HX.
  induction body as [|c body IH].
  - simpl in *. rewrite HX, andb_true_r.
    apply andb_true_iff in Hrep as [Hhit _].
    apply negb_true_iff in Hhit. apply negb_true_iff.
    apply (no_hit_cut q (String " " X) " "); [done..| |done]. by left.
  - change (freeb q (String c ((body +:+ " ") +:+ X)) = true).
    rewrite freeb_cons.
    change (freeb q (String c (body +:+ " ")) = true) in Hrep.
    rewrite freeb_cons in Hrep.
    apply andb_true_iff in Hrep as [Hhit Hrep].
    rewrite IH by done. rewrite andb_true_r.
    apply negb_true_iff in Hhit. apply negb_true_iff.
    apply (no_hit_cut q (String c ((body +:+ " ") +:+ X))
             (String c (body +:+ " "))); [done..| |done].
    rewrite app_assoc_str. apply (cut_before_space (String c body)).
Qed.

(** After substituting [r], the text is free of [q], provided that [q] hit
    the old text only where [r] did.  This holds for [q = r], and for any
    [q] the old text was free of. *)
Lemma sub_aux_free r q rep body :
  nullable q = false → spacefree q →
  rep = String " " body +:+ " " → freeb q rep = true →
  ∀ s k,
    on_suffixes (λ t, hitb r t = false → hitb q t = false) s →
    freeb q (sub_aux r rep k s) = true.
Proof.
  intros Hnull Hfree Hrep Hq.
  induction s as [|c s IH]; intros k [Hs Hrest].
  - simpl. by rewrite hitb_nil.
  - simpl. destruct k as [|k]; [|by apply IH].
    assert (Hkeep : hitb r (String c s) = false →
                    freeb q (String c (sub_aux r rep 0 s)) = true).
    { intros Hr. rewrite freeb_cons, IH by done. rewrite andb_true_r.
      apply negb_true_iff.
      apply (no_hit_cut q _ (String c s)); [done..| |by apply Hs].
      right. split; [done|]. apply sub_aux_cut. rewrite Hrep. by eexists. }
    unfold hitb in Hkeep.
    destruct (re_match r (String c s)) as [[|n]|];
      [by apply Hkeep| |by apply Hkeep].
    pose proof (IH n Hrest) as HX. revert HX.
    generalize (sub_aux r rep n s). intros X HX.
    rewrite Hrep in *. by apply (freeb_rep q (String " " body)).
Qed.

Lemma on_suffixes_all (P : string → Prop) s : (∀ t, P t) → on_suffixes P s.
Proof. intros HP. induction s; simpl; auto. Qed.

Lemma on_suffixes_free r q s :
  freeb q s = true → on_suffixes (λ t, hitb r t = false → hitb q t = false) s.
Proof.
  induction s as [|c s IH].
  - intros _. split; [|done]. intros _. apply hitb_nil.
  - rewrite freeb_cons. intros [Hhit Hs]%andb_true_iff.
    split; [|by apply IH]. intros _. by apply negb_true_iff.
Qed.

(** Substituting a pattern leaves none of its matches. *)
Lemma re_sub_own_free r rep body s :
  nullable r = false → spacefree r →
  rep = String " " body +:+ " " → freeb r rep = true →
  freeb r (re_sub r rep s) = true.
Proof.
  intros Hnull Hfree Hrep Hr. apply (sub_aux_free r r rep body); try done.
  by apply on_suffixes_all.
Qed.

(** Substituting a pattern creates no match of another one. *)
Lemma re_sub_keeps_free r q rep body s :
  nullable q = false → spacefree q →
  rep = String " " body +:+ " " → freeb q rep = true →
  freeb q s = true → freeb q (re_sub r rep s) = true.
Proof.
  intros Hnull Hfree Hrep Hq Hs. apply (sub_aux_free r q rep body); try done.
  by apply on_suffixes_free.
Qed.

End ReFacts.

(** ** processMail: the placeholder substitutions *)

Module PlaceholderFacts.
Import Py Re Mail Spec StrFacts ReFacts.

(** No pattern of the notebook matches the empty string, so [re_sub] and
    [re_split] never meet an empty match. *)
Lemma notebook_patterns_not_nullable :
  Forall (λ r, ∀ w, Matches r w → w ≠ "")
    [html_re; number_re; url_re; email_re; dollar_re; split_re; junk_re].
Proof.
  repeat constructor; intros w Hw ->; by apply nullable_sound in Hw.
Qed.

Lemma digits_nonspace c :
  in_class (cls [Rng "0" "9"]) c = true → isspace c = false.
Proof. by_chars c. Qed.

Lemma dollar_nonspace c :
  in_class (cls [Chr "$"]) c = true → isspace c = false.
Proof. by_chars c. Qed.

Lemma nonspace_nonspace c :
  in_class (ncls [Space]) c = true → isspace c = false.
Proof. by_chars c. Qed.

Lemma number_re_spacefree : spacefree number_re.
Proof. exact digits_nonspace. Qed.

Lemma url_re_spacefree : spacefree url_re.
Proof. simpl. repeat split; try done. exact nonspace_nonspace. Qed.

Lemma email_re_spacefree : spacefree email_re.
Proof. simpl. repeat split; try done; exact nonspace_nonspace. Qed.

Lemma dollar_re_spacefree : spacefree dollar_re.
Proof. exact dollar_nonspace. Qed.

Ltac pattern_facts :=
  first [reflexivity
        |exact number_re_spacefree|exact url_re_spacefree
        |exact email_re_spacefree|exact dollar_re_spacefree].

Ltac own_free body :=
  apply (re_sub_own_free _ _ body); pattern_facts.

Ltac keeps_free body :=
  apply (re_sub_keeps_free _ _ _ body); [pattern_facts..|].

(** After the four substitutions no pattern of the four has a match. *)
Lemma placeholders_free s :
  let t := placeholders s in
  freeb number_re t = true ∧ freeb url_re t = true
  ∧ freeb email_re t = true ∧ freeb dollar_re t = true.
Proof.
  unfold placeholders. repeat split.
  - keeps_free "dollar". keeps_free "emailaddr". keeps_free "httpaddr".
    own_free "number".
  - keeps_free "dollar". keeps_free "emailaddr". own_free "httpaddr".
  - keeps_free "dollar". own_free "emailaddr".
  - own_free "dollar".
Qed.

(** C7: the placeholder stage is idempotent: on a text that went through the
    four substitutions, each of the four changes nothing.  In particular the
    placeholder words themselves are left alone. *)
Theorem placeholders_idempotent s :
  placeholders (placeholders s) = placeholders s
  ∧ placeholders " number " = " number "
  ∧ placeholders " httpaddr " = " httpaddr "
  ∧ placeholders " emailaddr " = " emailaddr "
  ∧ placeholders " dollar " = " dollar ".
Proof.
  split; [|repeat split; reflexivity].
  destruct (placeholders_free s) as (Hn & Hu & He & Hd).
  set (t := placeholders s) in *.
  unfold placeholders at 1.
  by rewrite (sub_free_id number_re), (sub_free_id url_re),
    (sub_free_id email_re), (sub_free_id dollar_re).
Qed.

End PlaceholderFacts.

(** ** processMail: the header step and the split *)

Module MailFacts.
Import Py Re Mail Spec StrFacts.

Lemma occurs_tail sub c s : occurs sub s → occurs sub (String c s).
Proof. intros (a & b & ->). by exists (String c a), b. Qed.

(** [find] returns the offset of the blank line that no other precedes. *)
Lemma find_at_blank_line head body i :
  ¬ occurs blank_line (head +:+ String LF "") →
  find_at blank_line (head +:+ blank_line +:+ body) i
  = (i + Z.of_nat (len head))%Z.
Proof.
  revert i. induction head as [|c head IH]; intros i Hfirst.
  - simpl. lia.
  - assert (Hnone : strip_prefix blank_line
                      (String c head +:+ blank_line +:+ body) = None).
    { destruct (strip_prefix _ _) as [t|] eqn:Hp; [|done].
      exfalso. apply Hfirst. apply strip_prefix_Some in Hp.
      destruct head as [|b head]; simpl in Hp; simplify_eq.
      - by exists "", "".
      - exists "", (head +:+ String LF ""). done. }
    change (find_at blank_line (String c head +:+ blank_line +:+ body) i)
      with (match strip_prefix blank_line
                    (String c head +:+ blank_line +:+ body) with
            | Some _ => i
            | None => find_at blank_line (head +:+ blank_line +:+ body)
                        (i + 1)%Z
            end).
    rewrite Hnone, IH.
    + unfold len. simpl. lia.
    + intros Hocc. apply Hfirst. by apply occurs_tail.
Qed.

(** C2, as the code has it: when the text has a blank line, the header step
    returns the text from the first blank line on: what precedes the two
    newlines is discarded and the two newlines themselves are kept.  Here
    [head] is what precedes the first blank line, so no blank line begins
    inside [head]. *)
Theorem strip_headers_from_blank_line head body :
  ¬ occurs blank_line (head +:+ String LF "") →
  strip_headers (head +:+ blank_line +:+ body) = blank_line +:+ body.
Proof.
  intros Hfirst. unfold strip_headers, find.
  rewrite find_at_blank_line by done. unfold slice_from.
  rewrite len_app.
  replace (Z.to_nat _) with (len head).
  - apply drop_str_app.
  - destruct (Z.ltb_spec (0 + Z.of_nat (len head)) 0); lia.
Qed.

Lemma no_blank_line_in_To_me :
  ¬ occurs blank_line ("To: me" +:+ String LF "").
Proof.
  intros (a & b & H).
  do 7 (destruct a as [|? a]; [discriminate|injection H as <- H]).
  destruct a; discriminate.
Qed.

Lemma strip_headers_from_blank_line_witness :
  strip_headers ("To: me" +:+ blank_line +:+ "hello")
  = blank_line +:+ "hello".
Proof.
  apply (strip_headers_from_blank_line "To: me" "hello").
  exact no_blank_line_in_To_me.
Defined.

(** C2 fails as stated, at two inputs.  With a blank line, the
    specification's step gives the body [hello] while the code's result
    still starts with the two newlines.  Without one, the specification's
    step gives the text back while the code's result is its last character
    ([find] answers -1 and the slice [mail[-1:]] is taken). *)
Lemma strip_headers_differs_from_spec :
  strip_headers_spec ("To: me" +:+ blank_line +:+ "hello") = "hello"
  ∧ strip_headers ("To: me" +:+ blank_line +:+ "hello")
    = blank_line +:+ "hello"
  ∧ strip_headers_spec "plain text" = "plain text"
  ∧ strip_headers "plain text" = "t".
Proof. repeat split; reflexivity. Qed.

(** C3, at an input that breaks it.  The code does not split at the
    apostrophe or at the hyphen, which the specification's set holds, and it
    splits at the digit, which that set does not hold.  These are the only
    differences: a character is a split point of the code exactly when it is
    a digit, or is in the specification's set and is neither the apostrophe
    nor the hyphen. *)
Theorem tokenize_quote_hyphen_digit :
  tokenize "don't e-mail a1b" = ["don't"; "e-mail"; "a"; "b"]
  ∧ re_split (Cls (cls spec_split_items)) "don't e-mail a1b"
    = ["don"; "t"; "e"; "mail"; "a1b"]
  ∧ ∀ c, in_class (cls split_items) c
         = in_class (cls spec_split_items) c
           && negb (Ascii.eqb c "'" || Ascii.eqb c "-")
           || between "0" "9" c.
Proof.
  split; [reflexivity|]. split; [reflexivity|]. intros c. by_chars c.
Qed.

End MailFacts.

(** ** createVocabulary *)

Module VocabFacts.
Import Vocab Spec.

(** *** Positions in a list *)

Lemma before_cons {A} (x y a : A) l : before x y l → before x y (a :: l).
Proof. intros (l1 & l2 & l3 & ->). by exists (a :: l1), l2, l3. Qed.

Lemma before_head {A} (x y : A) l : y ∈ l → before x y (x :: l).
Proof.
  intros (l2 & l3 & ->)%list_elem_of_split. by exists [], l2, l3.
Qed.

Lemma before_cons_inv {A} (x y a : A) l :
  before x y (a :: l) → (x = a ∧ y ∈ l) ∨ before x y l.
Proof.
  intros (l1 & l2 & l3 & H). destruct l1 as [|b l1]; simplify_eq/=.
  - left. split; [done|]. rewrite elem_of_app, elem_of_cons. auto.
  - right. by exists l1, l2, l3.
Qed.

Lemma before_app_l {A} (x y : A) l k : before x y l → before x y (l ++ k).
Proof.
  intros (l1 & l2 & l3 & ->). exists l1, l2, (l3 ++ k).
  by rewrite <- !app_assoc, <- !app_comm_cons, <- !app_assoc.
Qed.

Lemma before_snoc {A} (x y : A) l : x ∈ l → before x y (l ++ [y]).
Proof.
  intros (l1 & l2 & ->)%list_elem_of_split. exists l1, l2, [].
  by rewrite <- app_assoc, <- app_comm_cons.
Qed.

Lemma before_fmap {A B} (f : A → B) x y l :
  before x y l → before (f x) (f y) (f <$> l).
Proof.
  intros (l1 & l2 & l3 & ->). exists (f <$> l1), (f <$> l2), (f <$> l3).
  by rewrite fmap_app, fmap_cons, fmap_app, fmap_cons.
Qed.

Lemma before_fmap_inv {A B} (f : A → B) u v l :
  before u v (f <$> l) → ∃ x y, f x = u ∧ f y = v ∧ before x y l.
Proof.
  intros (k1 & k2 & k3 & H).
  apply fmap_app_inv in H as (l1 & r1 & -> & H & ->). symmetry in H.
  apply fmap_cons_inv in H as (x & r2 & -> & H & ->). symmetry in H.
  apply fmap_app_inv in H as (l2 & r3 & -> & H & ->). symmetry in H.
  apply fmap_cons_inv in H as (y & l3 & -> & -> & ->).
  exists x, y. split; [done|]. split; [done|]. by exists l1, l2, l3.
Qed.

Lemma before_elem_of {A} (x y : A) l : before x y l → x ∈ l ∧ y ∈ l.
Proof.
  intros (l1 & l2 & l3 & ->).
  rewrite !elem_of_app, !elem_of_cons, !elem_of_app, !elem_of_cons. tauto.
Qed.

Lemma before_lookup {A} (x y : A) l j :
  NoDup l → before x y l → l !! j = Some y →
  ∃ i, i < j ∧ l !! i = Some x.
Proof.
  intros Hnd (l1 & l2 & l3 & ->) Hj.
  assert (Hy : (l1 ++ x :: l2 ++ y :: l3) !! (length l1 + S (length l2))
               = Some y).
  { rewrite lookup_app_r by lia.
    replace (length l1 + S (length l2) - length l1) with (S (length l2))
      by lia.
    simpl. rewrite lookup_app_r by lia.
    by replace (length l2 - length l2) with 0 by lia. }
  rewrite (NoDup_lookup _ _ _ _ Hnd Hj Hy).
  exists (length l1). split; [lia|].
  rewrite lookup_app_r by lia.
  by replace (length l1 - length l1) with 0 by lia.
Qed.

(** *** The dictionary of counts *)

Lemma dict_get_None d word : dict_get d word = None ↔ word ∉ d.*1.
Proof.
  induction d as [|[w c] d IH]; csimpl.
  - split; [intros _; apply not_elem_of_nil|done].
  - rewrite not_elem_of_cons.
    destruct (String.eqb_spec w word) as [->|Hne]; [naive_solver|].
    rewrite IH. naive_solver.
Qed.

Lemma dict_set_keys d word v :
  (dict_set d word v).*1
  = if decide (word ∈ d.*1) then d.*1 else d.*1 ++ [word].
Proof.
  induction d as [|[w c] d IH]; csimpl.
  - done.
  - destruct (String.eqb_spec w word) as [->|Hne]; csimpl.
    + rewrite decide_True; [done|]. apply elem_of_cons. by left.
    + rewrite IH. destruct (decide (word ∈ d.*1)) as [Hin|Hin].
      * rewrite decide_True; [done|]. apply elem_of_cons. by right.
      * rewrite decide_False; [done|]. rewrite not_elem_of_cons.
        split; [congruence|done].
Qed.

Lemma dict_get_set d word v w' :
  dict_get (dict_set d word v) w'
  = if decide (w' = word) then Some v else dict_get d w'.
Proof.
  induction d as [|[w c] d IH]; csimpl.
  - destruct (String.eqb_spec word w'), (decide (w' = word)); congruence.
  - destruct (String.eqb_spec w word) as [->|Hne]; csimpl.
    + destruct (String.eqb_spec word w'), (decide (w' = word)); congruence.
    + rewrite IH.
      destruct (String.eqb_spec w w'), (decide (w' = word)); congruence.
Qed.

Lemma count_word_keys d word :
  (count_word d word).*1
  = if decide (word ∈ d.*1) then d.*1 else d.*1 ++ [word].
Proof. unfold count_word. destruct (dict_get d word); apply dict_set_keys. Qed.

Lemma count_word_cnt d word w' :
  cnt (count_word d word) w'
  = cnt d w' + (if decide (w' = word) then 1 else 0).
Proof.
  unfold cnt, count_word.
  destruct (dict_get d word) as [c|] eqn:Hget; rewrite dict_get_set;
    destruct (decide (w' = word)) as [->|]; csimpl; try lia;
    rewrite Hget; csimpl; lia.
Qed.

Lemma count_mail_keys_prefix l :
  ∀ d, ∃ extra, (count_mail d l).*1 = d.*1 ++ extra.
Proof.
  unfold count_mail.
  induction l as [|w l IH]; intros d; csimpl.
  - exists []. by rewrite app_nil_r.
  - destruct (IH (count_word d w)) as [extra ->].
    rewrite count_word_keys. destruct (decide _).
    + by exists extra.
    + exists (w :: extra). by rewrite <- app_assoc.
Qed.

Lemma count_mail_NoDup l : ∀ d, NoDup d.*1 → NoDup (count_mail d l).*1.
Proof.
  unfold count_mail.
  induction l as [|w l IH]; intros d Hnd; csimpl; [done|].
  apply IH. rewrite count_word_keys. destruct (decide _) as [|Hin]; [done|].
  apply NoDup_app. split; [done|]. split.
  - intros x Hx ->%list_elem_of_singleton. done.
  - apply NoDup_singleton.
Qed.

Lemma count_mail_elem_of l w :
  ∀ d, w ∈ (count_mail d l).*1 ↔ w ∈ d.*1 ∨ w ∈ l.
Proof.
  unfold count_mail.
  induction l as [|x l IH]; intros d; csimpl.
  - rewrite elem_of_nil. naive_solver.
  - rewrite IH, count_word_keys, elem_of_cons.
    destruct (decide (x ∈ d.*1)); [naive_solver|].
    rewrite elem_of_app, list_elem_of_singleton. naive_solver.
Qed.

Lemma count_mail_cnt l w :
  ∀ d, cnt (count_mail d l) w = cnt d w + occurrences w l.
Proof.
  unfold count_mail, occurrences.
  induction l as [|x l IH]; intros d; csimpl; [lia|].
  rewrite IH, count_word_cnt, filter_cons.
  destruct (decide (w = x)) as [->|Hne].
  - rewrite decide_True by done. csimpl. lia.
  - rewrite decide_False by congruence. lia.
Qed.

Lemma all_words_w_count_concat mails :
  all_words_w_count mails = count_mail [] (concat mails).
Proof.
  unfold all_words_w_count, count_mail.
  assert (H : ∀ d, fold_left (λ d mail, fold_left count_word mail d) mails d
                   = fold_left count_word (concat mails) d).
  { induction mails as [|mail mails IH]; intros d; csimpl; [done|].
    by rewrite fold_left_app, IH. }
  apply H.
Qed.

Lemma dict_entry d w c : NoDup d.*1 → (w, c) ∈ d → cnt d w = c.
Proof.
  unfold cnt.
  induction d as [|[w' c'] d IH]; intros Hnd Hin; csimpl in *.
  - by apply elem_of_nil in Hin.
  - apply NoDup_cons in Hnd as [Hfresh Hnd].
    apply elem_of_cons in Hin as [Heq|Hin].
    + simplify_eq. by rewrite String.eqb_refl.
    + destruct (String.eqb_spec w' w) as [->|Hne]; [|by apply IH].
      exfalso. apply Hfresh. apply list_elem_of_fmap. by exists (w, c).
Qed.

(** *** The stable descending sort *)

Lemma insert_desc_perm x l : insert_desc x l ≡ₚ x :: l.
Proof.
  induction l as [|y l IH]; simpl; [done|].
  destruct (_ <=? _); [done|]. rewrite IH. apply Permutation_swap.
Qed.

Lemma sorted_desc_perm l : sorted_desc l ≡ₚ l.
Proof.
  induction l as [|x l IH]; simpl; [done|].
  by rewrite insert_desc_perm, IH.
Qed.

Lemma insert_desc_before_old x a b l :
  before a b l → before a b (insert_desc x l).
Proof.
  induction l as [|y l IH]; intros Hab; simpl.
  - destruct Hab as (l1 & l2 & l3 & H). by destruct l1.
  - destruct (_ <=? _); [by apply before_cons|].
    apply before_cons_inv in Hab as [[-> Hb]|Hab].
    + apply before_head. rewrite insert_desc_perm. apply elem_of_cons. auto.
    + apply before_cons. by apply IH.
Qed.

Lemma insert_desc_before_new x y l :
  y ∈ l → y.2 ≤ x.2 → before x y (insert_desc x l).
Proof.
  induction l as [|z l IH]; intros Hin Hle; simpl.
  - by apply elem_of_nil in Hin.
  - destruct (Nat.leb_spec z.2 x.2) as [Hz|Hz]; [by apply before_head|].
    apply before_cons. apply IH; [|done].
    apply elem_of_cons in Hin as [->|]; [lia|done].
Qed.

(** Items with equal counts keep their order. *)
Lemma sorted_desc_stable x y l :
  before x y l → x.2 = y.2 → before x y (sorted_desc l).
Proof.
  induction l as [|a l IH]; intros Hxy Heq; simpl.
  - destruct Hxy as (l1 & l2 & l3 & H). by destruct l1.
  - apply before_cons_inv in Hxy as [[-> Hy]|Hxy].
    + apply insert_desc_before_new; [by rewrite sorted_desc_perm|lia].
    + apply insert_desc_before_old. by apply IH.
Qed.

Lemma insert_desc_sorted x l :
  StronglySorted (λ a b, b.2 ≤ a.2) l →
  StronglySorted (λ a b, b.2 ≤ a.2) (insert_desc x l).
Proof.
  induction l as [|y l IH]; intros Hs; simpl.
  - repeat constructor.
  - apply StronglySorted_cons in Hs as Hs'. destruct Hs' as [Hall Hl].
    destruct (Nat.leb_spec y.2 x.2) as [Hy|Hy].
    + constructor; [done|]. constructor; [done|].
      eapply Forall_impl; [exact Hall|]. simpl. intros. lia.
    + constructor; [by apply IH|].
      rewrite insert_desc_perm. constructor; [lia|done].
Qed.

Lemma sorted_desc_sorted l :
  StronglySorted (λ a b, b.2 ≤ a.2) (sorted_desc l).
Proof.
  induction l as [|x l IH]; simpl; [constructor|].
  by apply insert_desc_sorted.
Qed.

Lemma sorted_lookup {A} (R : relation A) l i j x y :
  StronglySorted R l → i < j → l !! i = Some x → l !! j = Some y → R x y.
Proof.
  intros Hs. revert i j.
  induction Hs as [|a l Hs IH Hall]; intros i j Hij Hi Hj; [done|].
  destruct j as [|j]; [lia|]. destruct i as [|i]; simplify_eq/=.
  - rewrite Forall_forall in Hall. apply Hall.
    by eapply list_elem_of_lookup_2.
  - apply (IH i j); [lia|done..].
Qed.

(** *** The ranked word list *)

Lemma all_words_w_count_NoDup mails : NoDup (all_words_w_count mails).*1.
Proof.
  rewrite all_words_w_count_concat. apply count_mail_NoDup. constructor.
Qed.

Lemma all_words_w_count_cnt mails w :
  cnt (all_words_w_count mails) w = occurrences w (concat mails).
Proof. rewrite all_words_w_count_concat. by rewrite count_mail_cnt. Qed.

Lemma sorted_words_perm mails : sorted_words mails ≡ₚ (all_words_w_count mails).*1.
Proof. unfold sorted_words. by rewrite sorted_desc_perm. Qed.

Lemma sorted_words_NoDup mails : NoDup (sorted_words mails).
Proof. rewrite sorted_words_perm. apply all_words_w_count_NoDup. Qed.

Lemma sorted_words_elem_of mails w :
  w ∈ sorted_words mails ↔ w ∈ concat mails.
Proof.
  rewrite sorted_words_perm, all_words_w_count_concat, count_mail_elem_of.
  simpl. rewrite elem_of_nil. naive_solver.
Qed.

Lemma sorted_words_distinct mails :
  sorted_words mails ≡ₚ remove_dups (concat mails).
Proof.
  apply NoDup_Permutation.
  - apply sorted_words_NoDup.
  - apply NoDup_remove_dups.
  - intros w. by rewrite sorted_words_elem_of, elem_of_remove_dups.
Qed.

(** The count stored with a word of the ranked list is its number of
    occurrences in the corpus. *)
Lemma sorted_item_count mails w c :
  (w, c) ∈ sorted_desc (all_words_w_count mails) →
  c = occurrences w (concat mails).
Proof.
  rewrite sorted_desc_perm. intros Hin.
  rewrite <- all_words_w_count_cnt. symmetry.
  apply dict_entry; [apply all_words_w_count_NoDup|done].
Qed.

Lemma sorted_words_ranked mails i j wi wj :
  i ≤ j → sorted_words mails !! i = Some wi →
  sorted_words mails !! j = Some wj →
  occurrences wj (concat mails) ≤ occurrences wi (concat mails).
Proof.
  unfold sorted_words. rewrite !list_lookup_fmap.
  intros Hij Hi Hj.
  destruct (sorted_desc (all_words_w_count mails) !! i) as [[w1 c1]|] eqn:H1;
    [|done].
  destruct (sorted_desc (all_words_w_count mails) !! j) as [[w2 c2]|] eqn:H2;
    [|done].
  simplify_eq/=.
  destruct (decide (i = j)) as [->|Hne]; [by simplify_eq|].
  assert (E1 : c1 = occurrences wi (concat mails)).
  { apply sorted_item_count. by eapply list_elem_of_lookup_2. }
  assert (E2 : c2 = occurrences wj (concat mails)).
  { apply sorted_item_count. by eapply list_elem_of_lookup_2. }
  rewrite <- E1, <- E2.
  apply (sorted_lookup (λ a b, b.2 ≤ a.2) (sorted_desc (all_words_w_count mails))
           i j (wi, c1) (wj, c2));
    [apply sorted_desc_sorted|lia|done..].
Qed.

Lemma slice_to_nonneg {A} (size : Z) (l : list A) :
  (0 ≤ size)%Z → slice_to size l = take (Z.to_nat size) l.
Proof.
  intros Hsize. unfold slice_to.
  destruct (Z.ltb_spec size 0); [lia|].
  destruct (Z.le_ge_cases size (Z.of_nat (length l))).
  - by rewrite Z.min_l.
  - rewrite Z.min_r, Nat2Z.id by done.
    by rewrite !take_ge by lia.
Qed.

Lemma slice_to_take {A} (size : Z) (l : list A) :
  ∃ n, slice_to size l = take n l.
Proof. by eexists. Qed.

(** A word first seen after another one stands after it in the
    dictionary. *)
Lemma all_words_w_count_first_seen mails w1 w2 pre post :
  concat mails = pre ++ w2 :: post → w2 ∉ pre → w1 ∈ pre →
  before w1 w2 (all_words_w_count mails).*1.
Proof.
  intros Hflat Hnew Hold.
  rewrite all_words_w_count_concat, Hflat. unfold count_mail.
  rewrite fold_left_app. simpl.
  destruct (count_mail_keys_prefix post
              (count_word (fold_left count_word pre []) w2)) as [extra He].
  unfold count_mail in He. rewrite He. apply before_app_l.
  rewrite count_word_keys.
  assert (H1 : w1 ∈ (fold_left count_word pre []).*1).
  { apply (count_mail_elem_of pre w1 []). by right. }
  assert (H2 : w2 ∉ (fold_left count_word pre []).*1).
  { intros [Hin|Hin]%(count_mail_elem_of pre w2 []); [|done].
    by apply elem_of_nil in Hin. }
  rewrite decide_False by done. by apply before_snoc.
Qed.

(** C6: for a non-negative size K the vocabulary is the first K words of the
    ranked list, it has min(K, number of distinct stems) entries, no word
    twice, in non-increasing order of corpus frequency; when K is at least
    the number of distinct stems it holds all of them, and for K = 0 it is
    empty. *)
Theorem createVocabulary_size mails K :
  (0 ≤ K)%Z →
  let vocab := createVocabulary mails K in
  let distinct := remove_dups (concat mails) in
  length vocab = Nat.min (Z.to_nat K) (length distinct)
  ∧ vocab = take (Z.to_nat K) (sorted_words mails)
  ∧ NoDup vocab
  ∧ (∀ i j wi wj, i ≤ j → vocab !! i = Some wi → vocab !! j = Some wj →
       occurrences wj (concat mails) ≤ occurrences wi (concat mails))
  ∧ (length distinct ≤ Z.to_nat K → vocab ≡ₚ distinct)
  ∧ (K = 0%Z → vocab = []).
Proof.
  intros HK vocab distinct. subst vocab distinct. unfold createVocabulary.
  rewrite slice_to_nonneg by done.
  pose proof (sorted_words_distinct mails) as Hperm.
  split; [|split; [|split; [|split; [|split]]]].
  - rewrite length_take, <- Hperm. done.
  - done.
  - eapply sublist_NoDup; [apply sorted_words_NoDup|apply sublist_take].
  - intros i j wi wj Hij [Hi _]%lookup_take_Some [Hj _]%lookup_take_Some.
    by eapply sorted_words_ranked.
  - intros Hall. rewrite take_ge; [done|]. by rewrite Hperm.
  - intros ->. done.
Qed.

Lemma createVocabulary_size_witness :
  let mails :=
    [["buy"; "cheap"; "med"; "now"]; ["cheap"; "med"; "buy"; "cheap"]] in
  let vocab := createVocabulary mails 3 in
  let distinct := remove_dups (concat mails) in
  length vocab = Nat.min (Z.to_nat 3) (length distinct)
  ∧ vocab = take (Z.to_nat 3) (sorted_words mails)
  ∧ NoDup vocab
  ∧ (∀ i j wi wj, i ≤ j → vocab !! i = Some wi → vocab !! j = Some wj →
       occurrences wj (concat mails) ≤ occurrences wi (concat mails))
  ∧ (length distinct ≤ Z.to_nat 3 → vocab ≡ₚ distinct)
  ∧ (3%Z = 0%Z → vocab = []).
Proof.
  apply (createVocabulary_size
           [["buy"; "cheap"; "med"; "now"]; ["cheap"; "med"; "buy"; "cheap"]]
           3).
  lia.
Defined.

(** C10: two stems with the same corpus frequency are ranked by first
    appearance.  If [w1] occurs in the corpus scan before the first
    occurrence of [w2], both occur equally often, and [w2] is in the
    vocabulary at index [j2], then [w1] is in the vocabulary at a lower
    index.  The vocabulary is a function of the corpus and the size, and no
    word has two indices in it. *)
Theorem createVocabulary_tie_break mails size w1 w2 pre post j2 :
  concat mails = pre ++ w2 :: post → w2 ∉ pre → w1 ∈ pre →
  occurrences w1 (concat mails) = occurrences w2 (concat mails) →
  createVocabulary mails size !! j2 = Some w2 →
  NoDup (createVocabulary mails size)
  ∧ ∃ j1, j1 < j2 ∧ createVocabulary mails size !! j1 = Some w1.
Proof.
  intros Hflat Hnew Hold Hocc Hj2. unfold createVocabulary in *.
  destruct (slice_to_take size (sorted_words mails)) as [n Hn].
  rewrite Hn in *.
  split.
  { eapply sublist_NoDup; [apply sorted_words_NoDup|apply sublist_take]. }
  apply lookup_take_Some in Hj2 as [Hj2 Hlt].
  pose proof (all_words_w_count_first_seen mails w1 w2 pre post Hflat Hnew Hold)
    as Hbefore.
  apply before_fmap_inv in Hbefore as ([u1 c1] & [u2 c2] & ? & ? & Hb).
  simplify_eq/=.
  assert (Hc : c1 = c2).
  { destruct (before_elem_of _ _ _ Hb) as [Hin1 Hin2].
    rewrite <- (sorted_desc_perm (all_words_w_count mails)) in Hin1, Hin2.
    apply sorted_item_count in Hin1, Hin2. congruence. }
  apply (sorted_desc_stable (w1, c1) (w2, c2)) in Hb; [|done].
  apply (before_fmap fst) in Hb.
  destruct (before_lookup w1 w2 (sorted_words mails) j2
              (sorted_words_NoDup mails) Hb Hj2) as (j1 & Hlt1 & Hj1).
  exists j1. split; [done|]. apply lookup_take_Some. split; [done|lia].
Qed.

Lemma createVocabulary_tie_break_witness :
  NoDup (createVocabulary [["now"; "buy"; "med"]; ["med"; "buy"; "cheap"]] 3)
  ∧ ∃ j1, j1 < 1
          ∧ createVocabulary [["now"; "buy"; "med"]; ["med"; "buy"; "cheap"]] 3
              !! j1 = Some "buy".
Proof.
  apply (createVocabulary_tie_break
           [["now"; "buy"; "med"]; ["med"; "buy"; "cheap"]] 3
           "buy" "med" ["now"; "buy"] ["med"; "buy"; "cheap"] 1).
  - reflexivity.
  - intros H. repeat (apply elem_of_cons in H as [H|H]; [discriminate|]).
    by apply elem_of_nil in H.
  - apply elem_of_cons. right. apply elem_of_cons. by left.
  - reflexivity.
  - reflexivity.
Defined.

End VocabFacts.

(** ** processMail: the tokens *)

Module TokenFacts.
Import Py Re Mail Spec StrFacts ReFacts.

Lemma lower_char_not_upper c : isupper (lower_char c) = false.
Proof. by_chars c. Qed.

Lemma lower_not_upper s : str_all (λ c, isupper c = false) (lower s).
Proof.
  induction s as [|c s IH]; simpl; [done|].
  split; [apply lower_char_not_upper|done].
Qed.

(** What is neither junk nor an uppercase letter is a lowercase letter or a
    digit. *)
Lemma kept_char_ok c :
  in_class (ncls [Rng "a" "z"; Rng "A" "Z"; Rng "0" "9"]) c = false →
  isupper c = false → lower_or_digit c = true.
Proof. by_chars c. Qed.

Lemma sub_aux_chars (P : ascii → Prop) r rep :
  str_all P rep →
  ∀ s k, str_all P s → str_all P (sub_aux r rep k s).
Proof.
  intros Hrep. induction s as [|c s IH]; intros k; simpl; [done|].
  intros [Hc Hs]. destruct k as [|k]; [|by apply IH].
  destruct (re_match r (String c s)) as [[|n]|]; simpl; auto.
  apply str_all_app. auto.
Qed.

Lemma split_aux_chars (P : ascii → Prop) r :
  ∀ s k cur, str_all P cur → str_all P s →
             Forall (str_all P) (split_aux r k cur s).
Proof.
  induction s as [|c s IH]; intros k cur Hcur; simpl.
  - intros _. by constructor.
  - intros [Hc Hs]. destruct k as [|k]; [|by apply IH].
    assert (Hnext : Forall (str_all P)
                      (split_aux r 0 (cur +:+ String c "") s)).
    { apply IH; [|done]. apply str_all_app. simpl. auto. }
    destruct (re_match r (String c s)) as [[|n]|]; [done| |done].
    constructor; [done|]. by apply IH.
Qed.

(** A one-character class pattern matches exactly the characters of the
    class. *)
Lemma re_match_cls cl c s :
  re_match (Cls cl) (String c s)
  = if in_class cl c then Some 1 else None.
Proof.
  unfold re_match. simpl. destruct (in_class cl c); [|done].
  f_equal. unfold len. simpl. lia.
Qed.

(** Deleting the matches of a class pattern leaves no character of the
    class. *)
Lemma sub_aux_cls_removes cl :
  ∀ s k, str_all (λ c, in_class cl c = false)
           (sub_aux (Cls cl) "" k s).
Proof.
  induction s as [|c s IH]; intros k; [done|].
  cbn [sub_aux]. destruct k as [|k]; [|apply IH].
  rewrite re_match_cls. destruct (in_class cl c) eqn:Hc; simpl; auto.
Qed.

Lemma lstrip_chars (P : ascii → Prop) s : str_all P s → str_all P (lstrip s).
Proof.
  induction s as [|c s IH]; simpl; [done|]. intros [Hc Hs].
  destruct (isspace c); simpl; auto.
Qed.

Lemma rstrip_chars (P : ascii → Prop) s : str_all P s → str_all P (rstrip s).
Proof.
  induction s as [|c s IH]; simpl; [done|]. intros [Hc Hs].
  specialize (IH Hs). destruct (rstrip s); [|by simpl].
  destruct (isspace c); simpl; auto.
Qed.

Lemma strip_chars (P : ascii → Prop) s : str_all P s → str_all P (strip s).
Proof. intros H. by apply rstrip_chars, lstrip_chars. Qed.

Lemma str_all_and (P Q : ascii → Prop) s :
  str_all P s → str_all Q s → str_all (λ c, P c ∧ Q c) s.
Proof. induction s; simpl; [done|]. intros [] []. auto. Qed.

Lemma normalize_not_upper mail :
  str_all (λ c, isupper c = false) (normalize mail).
Proof.
  unfold normalize, placeholders, re_sub.
  repeat (apply sub_aux_chars; [by vm_compute|]).
  apply lower_not_upper.
Qed.

Lemma clean_word_chars word :
  str_all (λ c, isupper c = false) word →
  str_all (λ c, lower_or_digit c = true) (clean_word word).
Proof.
  intros Hword. unfold clean_word, junk_re, re_sub.
  apply strip_chars.
  eapply str_all_impl;
    [|apply str_all_and;
      [apply sub_aux_cls_removes|by apply (sub_aux_chars _ _ "")]].
  intros c [H1 H2]. by apply kept_char_ok.
Qed.

Section WithStemmer.

Variable stem : string → string.

Lemma stem_loop_tokens words :
  (∀ w, token_ok w → token_ok (stem w)) →
  Forall (str_all (λ c, isupper c = false)) words →
  ∀ clean_mail, Forall token_ok clean_mail →
                Forall token_ok (stem_loop stem words clean_mail).
Proof.
  intros Hstem Hwords. induction Hwords as [|word words Hword _ IH];
    intros clean_mail Hacc; simpl; [done|].
  destruct (Nat.eqb_spec (len (clean_word word)) 0) as [|Hlen];
    [by apply IH|].
  apply IH. apply Forall_app. split; [done|]. constructor; [|done].
  apply Hstem. split.
  - intros Heq. by rewrite Heq in Hlen.
  - by apply clean_word_chars.
Qed.

Lemma stem_loop_acc words : ∀ clean_mail,
  stem_loop stem words clean_mail = clean_mail ++ stem_loop stem words [].
Proof.
  induction words as [|word words IH]; intros clean_mail; simpl.
  - by rewrite app_nil_r.
  - destruct (Nat.eqb (len (clean_word word)) 0); [apply IH|].
    rewrite IH, (IH [stem (clean_word word)]). by rewrite <- app_assoc.
Qed.

End WithStemmer.

(** The stems are those of the cleaned words that are not empty, in their
    order: the emptiness test comes before the stemmer is called. *)
Lemma processMail_fmap stem mail :
  processMail stem mail = stem <$> processMail (λ w, w) mail.
Proof.
  unfold processMail. generalize (tokenize (normalize mail)).
  induction l as [|word words IH]; simpl; [done|].
  destruct (Nat.eqb (len (clean_word word)) 0); [apply IH|].
  rewrite (stem_loop_acc stem), (stem_loop_acc (λ w, w)), IH.
  by rewrite fmap_app.
Qed.

(** C4: every token [processMail] returns is a non-empty string of
    lowercase ASCII letters and digits, for a stemmer that maps such strings
    to such strings (as Porter's does). *)
Theorem processMail_tokens stem mail :
  (∀ w, token_ok w → token_ok (stem w)) →
  Forall token_ok (processMail stem mail).
Proof.
  intros Hstem. unfold processMail, tokenize, re_split.
  apply stem_loop_tokens; [done| |constructor].
  apply split_aux_chars; [done|]. apply normalize_not_upper.
Qed.

Lemma processMail_tokens_witness :
  Forall token_ok
    (processMail (λ w, w)
       (blank_line +:+ "Hello <b>World</b>, send $5 to me@x.com"
        +:+ String LF "" +:+ "or see http://x.y/z?1 e-mail_ISN'T")).
Proof.
  apply (processMail_tokens (λ w, w)).
  intros w Hw. exact Hw.
Defined.

End TokenFacts.

(** * Further properties *)

(** ** processMail, step by step *)

Module StepFacts.
Import Py Re Mail Spec StrFacts ReFacts MailFacts TokenFacts.

(** *** The header step *)

Lemma find_at_unfold sub s i :
  find_at sub s i
  = match strip_prefix sub s with
    | Some _ => i
    | None =>
        match s with
        | EmptyString => (-1)%Z
        | String _ s' => find_at sub s' (i + 1)%Z
        end
    end.
Proof. by destruct s. Qed.

Lemma find_at_not_occurs sub s i :
  ¬ occurs sub s → find_at sub s i = (-1)%Z.
Proof.
  revert i. induction s as [|c s IH]; intros i Hno; rewrite find_at_unfold.
  - destruct (strip_prefix sub "") as [t|] eqn:Hp; [|done].
    exfalso. apply Hno. apply strip_prefix_Some in Hp. by exists "", t.
  - destruct (strip_prefix sub (String c s)) as [t|] eqn:Hp.
    + exfalso. apply Hno. apply strip_prefix_Some in Hp. by exists "", t.
    + apply IH. intros Hocc. apply Hno. by apply occurs_tail.
Qed.

Lemma find_at_found sub s i :
  find_at sub s i ≠ (-1)%Z → occurs sub s.
Proof.
  revert i. induction s as [|c s IH]; intros i; rewrite find_at_unfold.
  - destruct (strip_prefix sub "") as [t|] eqn:Hp; [|done].
    intros _. apply strip_prefix_Some in Hp. by exists "", t.
  - destruct (strip_prefix sub (String c s)) as [t|] eqn:Hp.
    + intros _. apply strip_prefix_Some in Hp. by exists "", t.
    + intros H. apply occurs_tail. by eapply IH.
Qed.

Lemma find_at_ge sub s i :
  find_at sub s i = (-1)%Z ∨ (i ≤ find_at sub s i)%Z.
Proof.
  revert i. induction s as [|c s IH]; intros i; rewrite find_at_unfold.
  - destruct (strip_prefix sub ""); [right; lia|by left].
  - destruct (strip_prefix sub (String c s)); [right; lia|].
    destruct (IH (i + 1)%Z); [by left|right; lia].
Qed.

Lemma find_at_occurs sub s i :
  (0 ≤ i)%Z → occurs sub s → find_at sub s i ≠ (-1)%Z.
Proof.
  intros Hi (a & b & ->). revert i Hi.
  induction a as [|c a IH]; intros i Hi; rewrite find_at_unfold.
  - simpl. rewrite strip_prefix_app. lia.
  - destruct (strip_prefix sub _); [lia|]. simpl. apply IH. lia.
Qed.

(** [find] answers -1 exactly when the text is not there. *)
Lemma find_not_found sub s : find sub s = (-1)%Z ↔ ¬ occurs sub s.
Proof.
  split; [|apply find_at_not_occurs].
  intros Hfind Hocc. by apply (find_at_occurs sub s 0) in Hocc.
Qed.

Lemma strip_headers_last_char mail :
  ¬ occurs blank_line mail →
  strip_headers mail = drop_str (len mail - 1) mail.
Proof.
  intros Hno. unfold strip_headers, find.
  rewrite find_at_not_occurs by done. unfold slice_from. simpl.
  f_equal. lia.
Qed.

Lemma short_string s : len s ≤ 1 → s = "" ∨ ∃ c, s = String c "".
Proof.
  destruct s as [|c [|d s]]; unfold len; simpl; intros H;
    [by left|right; by exists c|lia].
Qed.

(** X1: on a text without a blank line the header step keeps the last
    character only (nothing for the empty text): [find] answers -1 and the
    slice [mail[-1:]] is taken. *)
Theorem strip_headers_without_blank_line mail :
  ¬ occurs blank_line mail →
  strip_headers mail = drop_str (len mail - 1) mail
  ∧ len (strip_headers mail) = Nat.min 1 (len mail).
Proof.
  intros Hno. rewrite strip_headers_last_char by done.
  split; [done|]. rewrite drop_str_len. lia.
Qed.

Lemma strip_headers_without_blank_line_witness :
  strip_headers "Subject: offer" = drop_str (len "Subject: offer" - 1)
                                     "Subject: offer"
  ∧ len (strip_headers "Subject: offer")
    = Nat.min 1 (len "Subject: offer").
Proof.
  apply (strip_headers_without_blank_line "Subject: offer").
  apply find_not_found. reflexivity.
Defined.

(** *** The stemming loop *)

(** What [processMail] computes from the text the header step leaves. *)
Lemma processMail_body stem mail :
  processMail stem mail
  = stem_loop stem
      (tokenize (placeholders (re_sub html_re " "
                                 (lower (strip_headers mail))))) [].
Proof. done. Qed.

Lemma one_char_one_word c :
  length (stem_loop (λ w, w)
            (tokenize (placeholders (re_sub html_re " "
                                       (lower (String c ""))))) []) ≤ 1.
Proof. destruct c as [[] [] [] [] [] [] [] []]; vm_compute; lia. Qed.

(** X2: from a text without a blank line [processMail] returns at most one
    token, whatever the length of the text. *)
Theorem processMail_without_blank_line stem mail :
  ¬ occurs blank_line mail → length (processMail stem mail) ≤ 1.
Proof.
  intros Hno. rewrite processMail_fmap, length_fmap, processMail_body.
  rewrite strip_headers_last_char by done.
  destruct (short_string (drop_str (len mail - 1) mail)) as [->|[c ->]].
  - rewrite drop_str_len. lia.
  - vm_compute. lia.
  - apply one_char_one_word.
Qed.

Lemma processMail_without_blank_line_witness :
  length (processMail (λ w, w) "Buy cheap meds now, only 5 dollars") ≤ 1.
Proof.
  apply (processMail_without_blank_line (λ w, w)
           "Buy cheap meds now, only 5 dollars").
  apply find_not_found. reflexivity.
Defined.

Lemma empty_word w : Nat.eqb (len w) 0 = bool_decide (w = "").
Proof. by destruct w. Qed.

(** X3: the tokens are the stems of the cleaned pieces of the split that
    are not empty, in the order of the text: the stemmer is called once on
    each of them, after the emptiness test, and what it returns is appended
    as it is. *)
Theorem processMail_stems_each_word stem mail :
  processMail stem mail
  = stem <$> filter (λ w, w ≠ "") (clean_word <$> tokenize (normalize mail)).
Proof.
  unfold processMail. generalize (tokenize (normalize mail)).
  induction l as [|word words IH]; [done|].
  cbn [stem_loop]. rewrite fmap_cons, filter_cons, empty_word.
  destruct (decide (clean_word word = "")) as [Heq|Hne].
  - rewrite bool_decide_eq_true_2, decide_False by tauto. apply IH.
  - rewrite bool_decide_eq_false_2, decide_True by done.
    rewrite (stem_loop_acc stem), IH. done.
Qed.

(** *** Cleaning a word *)

Lemma re_sub_cls_filter cl s :
  re_sub (Cls cl) "" s = str_filter (λ c, negb (in_class cl c)) s.
Proof.
  unfold re_sub. induction s as [|c s IH]; [done|].
  cbn [sub_aux str_filter]. rewrite re_match_cls.
  destruct (in_class cl c); simpl; by rewrite IH.
Qed.

Lemma str_filter_ext (P Q : ascii → bool) s :
  (∀ c, P c = Q c) → str_filter P s = str_filter Q s.
Proof. intros H. induction s as [|c s IH]; simpl; [done|]. by rewrite H, IH. Qed.

Lemma str_filter_all (P : ascii → bool) s :
  str_all (λ c, P c = true) (str_filter P s).
Proof.
  induction s as [|c s IH]; simpl; [done|].
  destruct (P c) eqn:Hc; simpl; auto.
Qed.

Lemma junk_is_not_alnum c :
  negb (in_class (ncls [Rng "a" "z"; Rng "A" "Z"; Rng "0" "9"]) c) = alnum c.
Proof. by_chars c. Qed.

Lemma alnum_not_space c : alnum c = true → isspace c = false.
Proof. by_chars c. Qed.

Lemma lstrip_id s : str_all (λ c, isspace c = false) s → lstrip s = s.
Proof. destruct s as [|c s]; simpl; [done|]. by intros [-> _]. Qed.

Lemma rstrip_id s : str_all (λ c, isspace c = false) s → rstrip s = s.
Proof.
  induction s as [|c s IH]; simpl; [done|]. intros [Hc Hs].
  rewrite IH by done. destruct s; [by rewrite Hc|done].
Qed.

(** X5: cleaning a word keeps exactly its ASCII letters and digits, in
    their order; the [strip()] that follows the substitution never removes
    anything. *)
Theorem clean_word_keeps_alnum word :
  clean_word word = str_filter alnum word
  ∧ strip (re_sub junk_re "" word) = re_sub junk_re "" word.
Proof.
  assert (Hsub : re_sub junk_re "" word = str_filter alnum word).
  { unfold junk_re. rewrite re_sub_cls_filter.
    apply str_filter_ext, junk_is_not_alnum. }
  assert (Hstrip : strip (str_filter alnum word) = str_filter alnum word).
  { assert (Hns : str_all (λ c, isspace c = false) (str_filter alnum word)).
    { eapply str_all_impl; [apply alnum_not_space|apply str_filter_all]. }
    unfold strip. by rewrite lstrip_id, rstrip_id. }
  unfold clean_word. by rewrite Hsub, Hstrip.
Qed.

(** *** The split *)

Lemma split_aux_cls cl : ∀ s cur,
  length (split_aux (Cls cl) 0 cur s) = S (str_count (in_class cl) s)
  ∧ str_concat (split_aux (Cls cl) 0 cur s)
    = cur +:+ str_filter (λ c, negb (in_class cl c)) s
  ∧ (str_all (λ c, in_class cl c = false) cur →
     Forall (str_all (λ c, in_class cl c = false))
       (split_aux (Cls cl) 0 cur s)).
Proof.
  induction s as [|c s IH]; intros cur.
  - simpl. rewrite !app_nil_r_str. split; [done|]. split; [done|].
    intros H. by constructor.
  - cbn [split_aux str_count str_filter]. rewrite re_match_cls.
    destruct (in_class cl c) eqn:Hc; simpl.
    + destruct (IH "") as (Hlen & Hcat & Hall).
      split; [by rewrite Hlen|]. split; [by rewrite Hcat|].
      intros Hcur. constructor; [done|]. by apply Hall.
    + destruct (IH (cur +:+ String c "")) as (Hlen & Hcat & Hall).
      split; [by rewrite Hlen|]. split; [by rewrite Hcat, app_assoc_str|].
      intros Hcur. apply Hall. apply str_all_app. simpl. auto.
Qed.

(** The pieces: there is one more than there are delimiter characters, no
    piece holds a delimiter, and the pieces put together are the text
    without its delimiters. *)
Lemma tokenize_pieces s :
  length (tokenize s) = S (str_count delimiter s)
  ∧ str_concat (tokenize s) = str_filter (λ c, negb (delimiter c)) s
  ∧ Forall (str_all (λ c, delimiter c = false)) (tokenize s).
Proof.
  unfold tokenize, re_split, split_re, delimiter.
  destruct (split_aux_cls (cls split_items) s "") as (Hlen & Hcat & Hall).
  split; [done|]. split; [done|]. by apply Hall.
Qed.

Lemma split_aux_text cl p : ∀ cur s,
  str_all (λ c, in_class cl c = false) p →
  split_aux (Cls cl) 0 cur (p +:+ s) = split_aux (Cls cl) 0 (cur +:+ p) s.
Proof.
  induction p as [|c p IH]; intros cur s.
  - intros _. simpl. by rewrite app_nil_r_str.
  - intros [Hc Hp]. cbn [String.append split_aux].
    rewrite re_match_cls, Hc, IH by done.
    by rewrite app_assoc_str.
Qed.

(** X6: the split cuts the text at every delimiter character and nowhere
    else.  A text [p] without a delimiter is one piece, itself; and when a
    delimiter [d] follows [p], the first piece is [p], [d] is dropped, and
    the other pieces are those of what follows [d].  Every text is of one of
    the two forms, so the two equations fix all pieces. *)
Theorem tokenize_cuts p d rest :
  str_all (λ c, delimiter c = false) p → delimiter d = true →
  tokenize p = [p]
  ∧ tokenize (p +:+ String d rest) = p :: tokenize rest.
Proof.
  unfold tokenize, re_split, split_re, delimiter. intros Hp Hd. split.
  - rewrite <- (app_nil_r_str p) at 1.
    by rewrite split_aux_text.
  - rewrite split_aux_text by done.
    cbn [split_aux String.append]. by rewrite re_match_cls, Hd.
Qed.

Lemma tokenize_cuts_witness :
  tokenize "don't" = ["don't"]
  ∧ tokenize ("don't" +:+ String " " "e-mail me")
    = "don't" :: tokenize "e-mail me".
Proof.
  apply (tokenize_cuts "don't" " " "e-mail me").
  - vm_compute. tauto.
  - reflexivity.
Defined.

(** *** Digits *)

Lemma sub_aux_removes (P : ascii → Prop) r rep :
  (∀ c s, hitb r (String c s) = false → P c) → str_all P rep →
  ∀ s k, str_all P (sub_aux r rep k s).
Proof.
  intros Hmiss Hrep. induction s as [|c s IH]; intros k; [done|].
  cbn [sub_aux]. destruct k as [|k]; [|apply IH].
  pose proof (Hmiss c s) as Hc. unfold hitb in Hc.
  destruct (re_match r (String c s)) as [[|n]|]; simpl; auto.
  apply str_all_app. auto.
Qed.

Lemma digit_hit c s :
  hitb number_re (String c s) = false → between "0" "9" c = false.
Proof.
  intros Hmiss. destruct (between "0" "9" c) eqn:Hc; [|done].
  rewrite <- Hmiss. symmetry. apply hitb_true; [done|].
  exists (String c ""), s. split; [done|]. simpl.
  unfold in_class. simpl. rewrite Hc. done.
Qed.

Lemma normalize_no_digit mail :
  str_all (λ c, between "0" "9" c = false) (normalize mail).
Proof.
  unfold normalize, placeholders, re_sub.
  do 3 (apply sub_aux_chars; [by vm_compute|]).
  apply sub_aux_removes; [apply digit_hit|by vm_compute].
Qed.

Lemma letter_char c :
  lower_or_digit c = true → between "0" "9" c = false →
  between "a" "z" c = true.
Proof. by_chars c. Qed.

Lemma clean_word_letters word :
  str_all (λ c, isupper c = false) word →
  str_all (λ c, between "0" "9" c = false) word →
  str_all (λ c, between "a" "z" c = true) (clean_word word).
Proof.
  intros Hup Hdig.
  eapply str_all_impl;
    [|apply str_all_and;
      [by apply clean_word_chars
      |apply strip_chars, (sub_aux_chars _ _ ""); [done|exact Hdig]]].
  intros c [H1 H2]. by apply letter_char.
Qed.

Lemma stem_loop_words (Q : string → Prop) words :
  Forall (λ w, clean_word w ≠ "" → Q (clean_word w)) words →
  ∀ clean_mail, Forall Q clean_mail →
                Forall Q (stem_loop (λ w, w) words clean_mail).
Proof.
  induction 1 as [|word words Hword _ IH]; intros clean_mail Hacc; simpl;
    [done|].
  destruct (Nat.eqb_spec (len (clean_word word)) 0) as [|Hlen];
    [by apply IH|].
  apply IH. apply Forall_app. split; [done|]. constructor; [|done].
  apply Hword. intros Heq. by rewrite Heq in Hlen.
Qed.

(** X4: no digit reaches the stemmer: every word it is called on is a
    non-empty string of the letters a to z.  Every run of digits of the text
    has become the word [number] before the split. *)
Theorem processMail_words_are_letters mail :
  Forall (λ w, w ≠ "" ∧ str_all (λ c, between "a" "z" c = true) w)
    (processMail (λ w, w) mail).
Proof.
  unfold processMail. apply stem_loop_words; [|constructor].
  pose proof (split_aux_chars _ split_re (normalize mail) 0 ""
                I (str_all_and _ _ _ (normalize_not_upper mail)
                                     (normalize_no_digit mail))) as Hpieces.
  unfold tokenize, re_split.
  eapply Forall_impl; [exact Hpieces|]. simpl.
  intros w Hw Hne. split; [done|].
  apply clean_word_letters; eapply str_all_impl; try exact Hw; naive_solver.
Qed.

(** *** Case *)

Lemma lower_ascii_lower_char c :
  lower_char (ascii_lower_char c) = lower_char c.
Proof. by_chars c. Qed.

Lemma lower_ascii_lower s : lower (ascii_lower s) = lower s.
Proof.
  induction s as [|c s IH]; simpl; [done|].
  by rewrite lower_ascii_lower_char, IH.
Qed.

Lemma len_ascii_lower s : len (ascii_lower s) = len s.
Proof. unfold len. induction s; simpl; congruence. Qed.

Lemma drop_str_ascii_lower n s :
  drop_str n (ascii_lower s) = ascii_lower (drop_str n s).
Proof. revert s. induction n as [|n IH]; intros [|c s]; simpl; auto. Qed.

Lemma eqb_LF_ascii_lower c :
  Ascii.eqb LF (ascii_lower_char c) = Ascii.eqb LF c.
Proof. by_chars c. Qed.

Lemma strip_prefix_blank_line_ascii_lower s :
  strip_prefix blank_line (ascii_lower s)
  = ascii_lower <$> strip_prefix blank_line s.
Proof.
  unfold blank_line.
  destruct s as [|c1 [|c2 s]]; cbn [ascii_lower strip_prefix]; [done|..];
    rewrite ?eqb_LF_ascii_lower; repeat destruct (Ascii.eqb LF _); done.
Qed.

Lemma find_at_blank_line_ascii_lower s : ∀ i,
  find_at blank_line (ascii_lower s) i = find_at blank_line s i.
Proof.
  induction s as [|c s IH]; intros i; [done|].
  rewrite (find_at_unfold _ (ascii_lower (String c s))),
    (find_at_unfold _ (String c s)), strip_prefix_blank_line_ascii_lower.
  destruct (strip_prefix blank_line (String c s)); simpl; [done|apply IH].
Qed.

Lemma strip_headers_ascii_lower mail :
  strip_headers (ascii_lower mail) = ascii_lower (strip_headers mail).
Proof.
  unfold strip_headers, find, slice_from.
  by rewrite find_at_blank_line_ascii_lower, len_ascii_lower,
    drop_str_ascii_lower.
Qed.

(** X8: [processMail] does not see the case of the letters A to Z: writing
    them in lowercase, one for one and every other character left as it is,
    gives the same tokens. *)
Theorem processMail_ignores_ascii_case stem mail :
  processMail stem (ascii_lower mail) = processMail stem mail.
Proof.
  rewrite !processMail_body.
  by rewrite strip_headers_ascii_lower, lower_ascii_lower.
Qed.

(** *** HTML tags *)

Lemma sub_aux_skip r rep w s :
  sub_aux r rep (len w) (w +:+ s) = sub_aux r rep 0 s.
Proof. induction w as [|c w IH]; simpl; [by destruct s|done]. Qed.

Lemma html_re_needs_lt c s :
  c ≠ "<"%char → re_match html_re (String c s) = None.
Proof.
  intros Hc. unfold re_match, html_re. cbn [run strip_prefix].
  destruct (Ascii.eqb_spec "<" c) as [Heq|_]; [by subst|done].
Qed.

Lemma sub_aux_html_text pre s :
  str_all (λ c, c ≠ "<"%char) pre →
  sub_aux html_re " " 0 (pre +:+ s) = pre +:+ sub_aux html_re " " 0 s.
Proof.
  induction pre as [|c pre IH]; [done|]. intros [Hc Hpre].
  cbn [String.append sub_aux]. rewrite html_re_needs_lt by done.
  by rewrite IH.
Qed.

Lemma run_star_stops cl w d rest k x :
  str_all (λ c, in_class cl c = true) w → in_class cl d = false →
  k (String d rest) = Some x →
  run_star cl (w +:+ String d rest) k = Some x.
Proof.
  intros Hw Hd Hk. induction w as [|c w IH]; simpl in *.
  - by rewrite Hd.
  - destruct Hw as [-> Hw]. by rewrite IH.
Qed.

Lemma tag_char c :
  c ≠ "<"%char ∧ c ≠ ">"%char →
  in_class (ncls [Chr "<"; Chr ">"]) c = true.
Proof.
  intros [H1 H2]. unfold in_class, ncls.
  cbn [negated items existsb in_item].
  destruct (Ascii.eqb_spec "<" c); [by subst|].
  destruct (Ascii.eqb_spec ">" c); [by subst|done].
Qed.

Lemma html_re_tag tag rest :
  tag ≠ "" → str_all (λ c, c ≠ "<"%char ∧ c ≠ ">"%char) tag →
  re_match html_re (String "<" (tag +:+ String ">" rest))
  = Some (S (S (len tag))).
Proof.
  intros Hne Htag. destruct tag as [|c tag]; [done|]. destruct Htag as [Hc Htag].
  unfold re_match, html_re. cbn [run strip_prefix String.append].
  rewrite Ascii.eqb_refl. rewrite (tag_char c Hc).
  rewrite (run_star_stops _ tag ">" rest _ rest).
  - f_equal.
    change (String "<" (String c (tag +:+ String ">" rest)))
      with (String "<" (String c tag) +:+ String ">" rest).
    rewrite len_app. unfold len. simpl. lia.
  - eapply str_all_impl; [apply tag_char|done].
  - done.
  - by rewrite Ascii.eqb_refl.
Qed.

(** X7: the HTML step leaves text without [<] as it is and replaces a tag,
    that is [<], one or more characters other than [<] and [>], and [>], by
    one space; it then goes on after the tag. *)
Theorem html_step_replaces_tag pre tag rest :
  str_all (λ c, c ≠ "<"%char) pre →
  tag ≠ "" → str_all (λ c, c ≠ "<"%char ∧ c ≠ ">"%char) tag →
  re_sub html_re " " pre = pre
  ∧ re_sub html_re " " (pre +:+ "<" +:+ tag +:+ ">" +:+ rest)
    = pre +:+ " " +:+ re_sub html_re " " rest.
Proof.
  intros Hpre Hne Htag. unfold re_sub. split.
  - rewrite <- (app_nil_r_str pre) at 1.
    by rewrite sub_aux_html_text, app_nil_r_str.
  - rewrite sub_aux_html_text by done. f_equal.
    change ("<" +:+ tag +:+ ">" +:+ rest)
      with (String "<" (tag +:+ String ">" rest)).
    cbn [sub_aux]. rewrite html_re_tag by done.
    change (" " +:+ ?x) with (String " " x). f_equal.
    replace (tag +:+ String ">" rest) with ((tag +:+ ">") +:+ rest)
      by (by rewrite app_assoc_str).
    replace (S (len tag)) with (len (tag +:+ ">"))
      by (rewrite len_app; unfold len; simpl; lia).
    apply sub_aux_skip.
Qed.

Lemma html_step_replaces_tag_witness :
  re_sub html_re " " "see " = "see "
  ∧ re_sub html_re " " ("see " +:+ "<" +:+ "b class=x" +:+ ">" +:+ "this</b>")
    = "see " +:+ " " +:+ re_sub html_re " " "this</b>".
Proof.
  apply (html_step_replaces_tag "see " "b class=x" "this</b>").
  - vm_compute. repeat split; discriminate.
  - discriminate.
  - vm_compute. repeat split; discriminate.
Defined.

End StepFacts.

(** ** createVocabulary: counts and ranks *)

Module RankFacts.
Import Vocab Spec VocabFacts.

Lemma occurrences_elem_of w l : w ∈ l → 0 < occurrences w l.
Proof.
  unfold occurrences. intros Hin.
  assert (Hf : w ∈ filter (λ x, x = w) l) by (by apply list_elem_of_filter).
  destruct (filter (λ x, x = w) l); [by apply elem_of_nil in Hf|simpl; lia].
Qed.

(** X9: after the counting loops the dictionary has one entry per distinct
    word of the corpus, and the entry of a word is the number of its
    occurrences in all messages together; a word that does not occur has no
    entry. *)
Theorem all_words_w_count_lookup mails w :
  NoDup (all_words_w_count mails).*1
  ∧ dict_get (all_words_w_count mails) w
    = (if decide (w ∈ concat mails)
       then Some (occurrences w (concat mails)) else None)
  ∧ (w ∈ concat mails → 0 < occurrences w (concat mails)).
Proof.
  split; [apply all_words_w_count_NoDup|]. split; [|apply occurrences_elem_of].
  pose proof (all_words_w_count_cnt mails w) as Hcnt. unfold cnt in Hcnt.
  assert (Hkeys : w ∈ (all_words_w_count mails).*1 ↔ w ∈ concat mails).
  { rewrite all_words_w_count_concat, count_mail_elem_of. simpl.
    rewrite elem_of_nil. naive_solver. }
  destruct (decide (w ∈ concat mails)) as [Hin|Hin].
  - destruct (dict_get (all_words_w_count mails) w) as [c|] eqn:Hget.
    + simpl in Hcnt. by subst.
    + apply dict_get_None in Hget. by apply Hkeys in Hin.
  - apply dict_get_None. by rewrite Hkeys.
Qed.

(** X13: only the sequence of all words counts, not how it is cut into
    messages: the vocabulary of a corpus is that of the one message made of
    all its messages in a row. *)
Theorem createVocabulary_one_message mails size :
  createVocabulary mails size = createVocabulary [concat mails] size.
Proof.
  unfold createVocabulary, sorted_words.
  rewrite (all_words_w_count_concat mails),
    (all_words_w_count_concat [concat mails]).
  simpl. by rewrite app_nil_r.
Qed.

Lemma vocabulary_prefix mails size :
  ∃ n, createVocabulary mails size = take n (sorted_words mails).
Proof. apply slice_to_take. Qed.

(** X10: the vocabulary holds the most frequent words: each of its words
    occurs in the corpus, at least as often as every word of the corpus that
    was left out. *)
Theorem createVocabulary_most_frequent mails size w w' :
  w ∈ createVocabulary mails size →
  w' ∈ concat mails → w' ∉ createVocabulary mails size →
  w ∈ concat mails
  ∧ occurrences w' (concat mails) ≤ occurrences w (concat mails).
Proof.
  destruct (vocabulary_prefix mails size) as [n ->].
  intros [i [Hi Hin]%lookup_take_Some]%list_elem_of_lookup Hw' Hout.
  split.
  { apply sorted_words_elem_of. by eapply list_elem_of_lookup_2. }
  apply sorted_words_elem_of in Hw'.
  apply list_elem_of_lookup in Hw' as [j Hj].
  apply (sorted_words_ranked mails i j); [|done..].
  destruct (decide (j < n)) as [Hlt|]; [|lia].
  exfalso. apply Hout. apply list_elem_of_lookup. exists j.
  by apply lookup_take_Some.
Qed.

Lemma createVocabulary_most_frequent_witness :
  "cheap" ∈ concat [["buy"; "cheap"]; ["cheap"; "now"]]
  ∧ occurrences "now" (concat [["buy"; "cheap"]; ["cheap"; "now"]])
    ≤ occurrences "cheap" (concat [["buy"; "cheap"]; ["cheap"; "now"]]).
Proof.
  apply (createVocabulary_most_frequent
           [["buy"; "cheap"]; ["cheap"; "now"]] 2 "cheap" "now").
  - vm_compute. apply elem_of_cons. by left.
  - vm_compute. do 3 (apply elem_of_cons; right). apply elem_of_cons.
    by left.
  - vm_compute. intros H.
    repeat (apply elem_of_cons in H as [H|H]; [discriminate|]).
    by apply elem_of_nil in H.
Defined.

(** X12: a word that occurs more often than a word of the vocabulary is in
    the vocabulary too, at a lower index. *)
Theorem createVocabulary_more_frequent_first mails size w1 w2 j2 :
  w1 ∈ concat mails →
  occurrences w2 (concat mails) < occurrences w1 (concat mails) →
  createVocabulary mails size !! j2 = Some w2 →
  ∃ j1, j1 < j2 ∧ createVocabulary mails size !! j1 = Some w1.
Proof.
  destruct (vocabulary_prefix mails size) as [n ->].
  intros Hw1 Hocc [Hj2 Hlt]%lookup_take_Some.
  apply sorted_words_elem_of in Hw1.
  apply list_elem_of_lookup in Hw1 as [j1 Hj1].
  exists j1.
  assert (j1 < j2).
  { destruct (decide (j1 < j2)) as [|Hge]; [done|].
    pose proof (sorted_words_ranked mails j2 j1 w2 w1) as Hr.
    specialize (Hr ltac:(lia) Hj2 Hj1). lia. }
  split; [done|]. apply lookup_take_Some. split; [done|lia].
Qed.

Lemma createVocabulary_more_frequent_first_witness :
  ∃ j1, j1 < 1
        ∧ createVocabulary [["buy"; "cheap"]; ["cheap"; "now"]] 2 !! j1
          = Some "cheap".
Proof.
  apply (createVocabulary_more_frequent_first
           [["buy"; "cheap"]; ["cheap"; "now"]] 2 "cheap" "buy" 1).
  - vm_compute. apply elem_of_cons. right. apply elem_of_cons. by left.
  - vm_compute. lia.
  - reflexivity.
Defined.

(** X11: a negative size is no error: the slice [sorted_words[:size]] then
    drops the last [-size] words of the ranked list, and the vocabulary has
    that many words less than there are distinct stems (none, when there are
    not that many). *)
Theorem createVocabulary_negative_size mails size :
  (size < 0)%Z →
  createVocabulary mails size
  = take (length (sorted_words mails) - Z.to_nat (- size))
      (sorted_words mails)
  ∧ length (createVocabulary mails size)
    = length (remove_dups (concat mails)) - Z.to_nat (- size).
Proof.
  intros Hneg. rewrite <- (sorted_words_distinct mails).
  assert (Heq : createVocabulary mails size
                = take (length (sorted_words mails) - Z.to_nat (- size))
                    (sorted_words mails)).
  { unfold createVocabulary, slice_to.
    destruct (Z.ltb_spec size 0); [|lia]. f_equal. lia. }
  split; [done|]. rewrite Heq, length_take. lia.
Qed.

Lemma createVocabulary_negative_size_witness :
  createVocabulary [["buy"; "cheap"]; ["cheap"; "now"]] (-1)
  = take (length (sorted_words [["buy"; "cheap"]; ["cheap"; "now"]])
          - Z.to_nat (- (-1)))
      (sorted_words [["buy"; "cheap"]; ["cheap"; "now"]])
  ∧ length (createVocabulary [["buy"; "cheap"]; ["cheap"; "now"]] (-1))
    = length (remove_dups (concat [["buy"; "cheap"]; ["cheap"; "now"]]))
      - Z.to_nat (- (-1)).
Proof.
  apply (createVocabulary_negative_size
           [["buy"; "cheap"]; ["cheap"; "now"]] (-1)).
  lia.
Defined.

End RankFacts.

(** ** getFeatureMatrix: how rows depend on messages *)

Module RowFacts.
Import Vocab Features Train Spec VocabFacts FeatureFacts.

Lemma elem_of_concat {A} (x : A) (ls : list (list A)) :
  x ∈ concat ls → ∃ l, x ∈ l ∧ l ∈ ls.
Proof.
  induction ls as [|l ls IH]; simpl; [by intros ?%elem_of_nil|].
  intros [Hin|Hin]%elem_of_app.
  - exists l. split; [done|]. apply elem_of_cons. by left.
  - destruct (IH Hin) as (l' & ? & ?). exists l'. split; [done|].
    apply elem_of_cons. by right.
Qed.

(** X14: a row depends on the set of words of its message only: messages
    with the same words, in whatever order and number, get the same row. *)
Theorem getFeatureMatrix_set_of_words mails1 mails2 vocab :
  Forall2 (λ mail1 mail2, ∀ w, w ∈ mail1 ↔ w ∈ mail2) mails1 mails2 →
  getFeatureMatrix mails1 vocab = getFeatureMatrix mails2 vocab.
Proof.
  rewrite !getFeatureMatrix_rows.
  induction 1 as [|mail1 mail2 mails1 mails2 Hsame _ IH]; [done|].
  rewrite !fmap_cons, IH. f_equal.
  apply list_fmap_ext. intros _ word _. unfold contains.
  by rewrite (bool_decide_ext _ _ (Hsame word)).
Qed.

Lemma getFeatureMatrix_set_of_words_witness :
  getFeatureMatrix [["buy"; "cheap"; "buy"]] ["cheap"; "now"]
  = getFeatureMatrix [["cheap"; "buy"]] ["cheap"; "now"].
Proof.
  apply (getFeatureMatrix_set_of_words
           [["buy"; "cheap"; "buy"]] [["cheap"; "buy"]] ["cheap"; "now"]).
  constructor; [|constructor].
  intros w. rewrite !elem_of_cons, !elem_of_nil. naive_solver.
Defined.

(** X15: rows do not depend on each other: the matrix of two batches of
    messages is the matrix of the first on top of the matrix of the second,
    and it has one row per message. *)
Theorem getFeatureMatrix_app mails1 mails2 vocab :
  getFeatureMatrix (mails1 ++ mails2) vocab
  = getFeatureMatrix mails1 vocab ++ getFeatureMatrix mails2 vocab
  ∧ length (getFeatureMatrix mails1 vocab) = length mails1.
Proof.
  rewrite !getFeatureMatrix_rows. split; [apply fmap_app|apply length_fmap].
Qed.

(** X16: the training matrix of the cell "Model variables", built with the
    vocabulary of the same messages, has one row per message and one column
    per vocabulary word, and no column of it is all zero: every vocabulary
    word has a message whose row holds 1 in its column. *)
Theorem model_variables_columns clean_mails labels :
  let '(vocabulary, X, y) := model_variables clean_mails labels in
  length X = length clean_mails
  ∧ Forall (λ row, length row = length vocabulary) X
  ∧ (∀ j word, vocabulary !! j = Some word →
       ∃ i row, X !! i = Some row ∧ row !! j = Some 1)
  ∧ y = labels.
Proof.
  unfold model_variables. rewrite getFeatureMatrix_rows.
  split; [apply length_fmap|]. split; [|split; [|done]].
  - apply Forall_fmap, Forall_forall. intros mail _. simpl.
    apply length_fmap.
  - intros j word Hj.
    assert (Hin : word ∈ concat clean_mails).
    { destruct (slice_to_take VOCAB_SIZE (sorted_words clean_mails))
        as [n Hn].
      unfold createVocabulary in Hj. rewrite Hn in Hj.
      apply lookup_take_Some in Hj as [Hj _].
      apply sorted_words_elem_of. by eapply list_elem_of_lookup_2. }
    apply elem_of_concat in Hin as (mail & Hword & Hmail).
    apply list_elem_of_lookup in Hmail as [i Hi].
    exists i, (contains mail <$> createVocabulary clean_mails VOCAB_SIZE).
    split; [by rewrite list_lookup_fmap, Hi|].
    rewrite list_lookup_fmap, Hj. simpl. unfold contains.
    by rewrite bool_decide_eq_true_2.
Qed.

End RowFacts.

(** ** predictSamples: the whole trace *)

Module TraceFacts.
Import Mail Features Predict Spec PredictFacts FeatureFacts.

Lemma print_loop_lines filenames : ∀ predictions i out,
  i + length predictions ≤ length filenames →
  print_loop filenames i predictions out
  = (out ++ (Printed <$> zip_with result_line (drop i filenames) predictions),
     Returned).
Proof.
  induction predictions as [|pred rest IH]; intros i out Hlen; simpl in *.
  - destruct (drop i filenames); simpl; by rewrite app_nil_r.
  - destruct (lookup_lt_is_Some_2 filenames i ltac:(lia)) as [name Hname].
    rewrite Hname, IH by lia.
    rewrite (drop_S _ _ _ Hname). simpl.
    by rewrite <- app_assoc.
Qed.

Section WithWorld.

Variable stem : string → string.
Variable W : world.

Lemma read_loop_trace filenames : ∀ clean_mails out,
  (read_loop stem W filenames clean_mails out).2
  = out ++ concat (read_events W <$> filenames).
Proof.
  induction filenames as [|f rest IH]; intros cm out.
  - simpl. by rewrite app_nil_r.
  - rewrite fmap_cons. cbn [concat read_loop].
    destruct (read_sample W f) eqn:Hf; rewrite IH, <- app_assoc;
      unfold read_events; by rewrite Hf.
Qed.

Lemma read_loop_pair filenames :
  read_loop stem W filenames [] []
  = (processMail stem <$> omap (read_sample W) filenames,
     concat (read_events W <$> filenames)).
Proof.
  rewrite (surjective_pairing (read_loop stem W filenames [] [])).
  by rewrite read_loop_mails, read_loop_trace.
Qed.

End WithWorld.

Lemma opened_app t1 t2 : opened (t1 ++ t2) = opened t1 ++ opened t2.
Proof. apply omap_app. Qed.

Lemma opened_read_events W filenames :
  opened (concat (read_events W <$> filenames)) = filenames.
Proof.
  induction filenames as [|f rest IH]; [done|].
  rewrite fmap_cons. cbn [concat]. rewrite opened_app, IH.
  unfold read_events. by destruct (read_sample W f).
Qed.

Lemma opened_printed lines : opened (Printed <$> lines) = [].
Proof. induction lines; simpl; auto. Qed.

Lemma opened_print_loop filenames : ∀ predictions i out,
  opened (print_loop filenames i predictions out).1 = opened out.
Proof.
  induction predictions as [|pred rest IH]; intros i out; simpl; [done|].
  destruct (filenames !! i); [|done].
  rewrite IH, opened_app. simpl. apply app_nil_r.
Qed.

(** X17: every call opens each of the given files once, in the order of the
    list, whatever can be read and whether or not the vocabulary and the
    model are there: the files are read before the state is looked at. *)
Theorem predictSamples_opens_every_file stem W filenames :
  opened (predictSamples stem W filenames).1 = filenames.
Proof.
  unfold predictSamples. destruct filenames as [|f0 rest]; [done|].
  rewrite read_loop_pair.
  pose proof (opened_read_events W (f0 :: rest)) as Hopen.
  destruct (vocabulary W) as [vocab|];
    [|cbn [fst]; rewrite opened_app, Hopen; simpl; by rewrite !app_nil_r].
  destruct (clf W) as [predict|];
    [|cbn [fst]; rewrite !opened_app, Hopen; simpl; by rewrite !app_nil_r].
  destruct (predict _) as [predictions|];
    [|cbn [fst]; rewrite !opened_app, Hopen; simpl; by rewrite !app_nil_r].
  rewrite opened_print_loop, !opened_app, Hopen. simpl.
  by rewrite !app_nil_r.
Qed.

(** X18: when the classifier answers, the call prints one result line per
    prediction, and the line of the [i]-th prediction carries the [i]-th
    name of [filenames], whichever files were skipped; the predictions are
    those for the files that could be read. *)
Theorem predictSamples_result_lines stem W filenames vocab predict
    predictions :
  filenames ≠ [] →
  vocabulary W = Some vocab → clf W = Some predict →
  predict (getFeatureMatrix
             (processMail stem <$> omap (read_sample W) filenames) vocab)
  = Some predictions →
  length predictions ≤ length filenames →
  predictSamples stem W filenames
  = (concat (read_events W <$> filenames)
     ++ [Vectorized (processMail stem <$> omap (read_sample W) filenames);
         Predicted (getFeatureMatrix
                      (processMail stem <$> omap (read_sample W) filenames)
                      vocab)]
     ++ (Printed <$> zip_with result_line filenames predictions),
     Returned).
Proof.
  intros Hne Hv Hc Hp Hlen. unfold predictSamples.
  destruct filenames as [|f0 rest]; [done|].
  rewrite read_loop_pair, Hv, Hc, Hp.
  rewrite print_loop_lines by (simpl in *; lia).
  rewrite drop_0. by rewrite <- !app_assoc.
Qed.

Lemma predictSamples_result_lines_witness :
  predictSamples (λ w, w) sample_world ["missing.txt"; "offer.txt"]
  = (concat (read_events sample_world <$> ["missing.txt"; "offer.txt"])
     ++ [Vectorized (processMail (λ w, w)
                       <$> omap (read_sample sample_world)
                             ["missing.txt"; "offer.txt"]);
         Predicted (getFeatureMatrix
                      (processMail (λ w, w)
                         <$> omap (read_sample sample_world)
                               ["missing.txt"; "offer.txt"])
                      ["cheap"; "med"; "meet"])]
     ++ (Printed <$> zip_with result_line ["missing.txt"; "offer.txt"] [1]),
     Returned).
Proof.
  apply (predictSamples_result_lines (λ w, w) sample_world
           ["missing.txt"; "offer.txt"] ["cheap"; "med"; "meet"]
           (λ X, Some ((λ row, match row with 1 :: _ => 1 | _ => 0 end)
                       <$> X))
           [1]).
  - discriminate.
  - reflexivity.
  - reflexivity.
  - reflexivity.
  - simpl. lia.
Defined.

Lemma all_readable W filenames texts :
  Forall2 (λ f text, read_sample W f = Some text) filenames texts →
  omap (read_sample W) filenames = texts
  ∧ concat (read_events W <$> filenames) = Opened <$> filenames.
Proof.
  induction 1 as [|f text filenames texts Hf _ [IH1 IH2]]; [done|]. split.
  - csimpl. by rewrite Hf, IH1.
  - rewrite !fmap_cons. cbn [concat]. rewrite IH2.
    unfold read_events. by rewrite Hf.
Qed.

(** X19: when every file can be read, every file gets its own label: row
    [i] of the matrix is computed from the text of the [i]-th file, and the
    line printed for prediction [i] names that file. *)
Theorem predictSamples_all_readable stem W filenames texts vocab predict
    predictions :
  filenames ≠ [] →
  Forall2 (λ f text, read_sample W f = Some text) filenames texts →
  vocabulary W = Some vocab → clf W = Some predict →
  predict (getFeatureMatrix (processMail stem <$> texts) vocab)
  = Some predictions →
  length predictions = length filenames →
  predictSamples stem W filenames
  = ((Opened <$> filenames)
     ++ [Vectorized (processMail stem <$> texts);
         Predicted (getFeatureMatrix (processMail stem <$> texts) vocab)]
     ++ (Printed <$> zip_with result_line filenames predictions),
     Returned).
Proof.
  intros Hne Hall Hv Hc Hp Hlen.
  destruct (all_readable W filenames texts Hall) as [Hmails Hevents].
  unfold predictSamples. destruct filenames as [|f0 rest]; [done|].
  rewrite read_loop_pair, Hmails, Hevents, Hv, Hc, Hp.
  rewrite print_loop_lines by (simpl in *; lia).
  rewrite drop_0. by rewrite <- !app_assoc.
Qed.

Lemma predictSamples_all_readable_witness :
  predictSamples (λ w, w) sample_world ["offer.txt"; "offer.txt"]
  = ((Opened <$> ["offer.txt"; "offer.txt"])
     ++ [Vectorized (processMail (λ w, w)
                       <$> [blank_line +:+ "Buy cheap meds now";
                            blank_line +:+ "Buy cheap meds now"]);
         Predicted (getFeatureMatrix
                      (processMail (λ w, w)
                         <$> [blank_line +:+ "Buy cheap meds now";
                              blank_line +:+ "Buy cheap meds now"])
                      ["cheap"; "med"; "meet"])]
     ++ (Printed <$> zip_with result_line ["offer.txt"; "offer.txt"] [1; 1]),
     Returned).
Proof.
  apply (predictSamples_all_readable (λ w, w) sample_world
           ["offer.txt"; "offer.txt"]
           [blank_line +:+ "Buy cheap meds now";
            blank_line +:+ "Buy cheap meds now"]
           ["cheap"; "med"; "meet"]
           (λ X, Some ((λ row, match row with 1 :: _ => 1 | _ => 0 end)
                       <$> X))
           [1; 1]).
  - discriminate.
  - repeat constructor.
  - reflexivity.
  - reflexivity.
  - reflexivity.
  - reflexivity.
Defined.

Lemma none_readable W filenames :
  Forall (λ f, read_sample W f = None) filenames →
  omap (read_sample W) filenames = []
  ∧ concat (read_events W <$> filenames)
    = concat ((λ f, [Opened f; Printed (could_not_read f)]) <$> filenames).
Proof.
  induction 1 as [|f filenames Hf _ [IH1 IH2]]; [done|]. split.
  - csimpl. by rewrite Hf, IH1.
  - rewrite !fmap_cons. cbn [concat]. rewrite IH2.
    unfold read_events. by rewrite Hf.
Qed.

(** X20: when no file can be read, the call still goes on: the classifier is
    called on a matrix without rows, and if it raises on that, the call ends
    with the line [No model has been trained.] although there is a model. *)
Theorem predictSamples_none_readable stem W filenames vocab predict :
  filenames ≠ [] →
  Forall (λ f, read_sample W f = None) filenames →
  vocabulary W = Some vocab → clf W = Some predict →
  predict [] = None →
  predictSamples stem W filenames
  = (concat ((λ f, [Opened f; Printed (could_not_read f)]) <$> filenames)
     ++ [Vectorized []; Predicted []; Printed "No model has been trained."],
     Returned).
Proof.
  intros Hne Hall Hv Hc Hp.
  destruct (none_readable W filenames Hall) as [Hmails Hevents].
  unfold predictSamples. destruct filenames as [|f0 rest]; [done|].
  rewrite read_loop_pair, Hmails, Hevents, Hv, Hc.
  change (getFeatureMatrix (processMail stem <$> []) vocab)
    with (@nil (list nat)).
  rewrite Hp. by rewrite <- !app_assoc.
Qed.

Lemma predictSamples_none_readable_witness :
  predictSamples (λ w, w) strict_world ["a.txt"; "b.txt"]
  = (concat ((λ f, [Opened f; Printed (could_not_read f)])
             <$> ["a.txt"; "b.txt"])
     ++ [Vectorized []; Predicted []; Printed "No model has been trained."],
     Returned).
Proof.
  apply (predictSamples_none_readable (λ w, w) strict_world
           ["a.txt"; "b.txt"] ["cheap"; "med"; "meet"]
           (λ X, match X with
                 | [] => None
                 | _ => Some ((λ row, match row with 1 :: _ => 1 | _ => 0 end)
                              <$> X)
                 end)).
  - discriminate.
  - repeat constructor.
  - reflexivity.
  - reflexivity.
  - reflexivity.
Defined.

End TraceFacts.

(** ** Loading the data *)

Module LoadFacts.
Import Py Mail Load Spec StepFacts.

Section WithStemmer.

Variable stem : string → string.

Lemma load_dir_spec spam mail_ids : ∀ clean_mails labels,
  load_dir stem spam mail_ids clean_mails labels
  = (clean_mails ++ (processMail stem <$> omap snd mail_ids),
     labels ++ ((λ _, Nat.b2n spam) <$> omap snd mail_ids)).
Proof.
  induction mail_ids as [|[mail_id [text|]] rest IH]; intros cm ls; csimpl.
  - by rewrite !app_nil_r.
  - rewrite IH. by rewrite <- !app_assoc.
  - apply IH.
Qed.

Lemma load_dirs_spec data : ∀ clean_mails labels,
  load_dirs stem data clean_mails labels
  = (clean_mails ++ (labelled_mails stem data).*1,
     labels ++ (labelled_mails stem data).*2).
Proof.
  unfold labelled_mails.
  induction data as [|[name mail_ids] rest IH]; intros cm ls.
  - simpl. by rewrite !app_nil_r.
  - cbn [load_dirs]. rewrite load_dir_spec, IH.
    rewrite fmap_cons. cbn [concat fst snd]. rewrite !fmap_app.
    rewrite <- !app_assoc. do 2 f_equal.
    + f_equal. rewrite <- list_fmap_compose. done.
    + f_equal. rewrite <- list_fmap_compose. done.
Qed.

End WithStemmer.

(** X21: the loading cell keeps messages and labels in step: the two lists
    have the same length, and position by position they hold the tokens of a
    file that could be read and the label of its sub-directory, in listing
    order; a file that cannot be read adds to neither list. *)
Theorem load_data_aligned stem data :
  let '(clean_mails, labels) := load_data stem data in
  length clean_mails = length labels
  ∧ zip clean_mails labels = labelled_mails stem data.
Proof.
  unfold load_data. rewrite load_dirs_spec. simpl.
  split; [by rewrite !length_fmap|apply zip_fst_snd].
Qed.

(** X22: a sub-directory is labelled spam exactly when the four letters
    [spam] occur somewhere in its name. *)
Theorem is_spam_substring sub_dir_name :
  is_spam sub_dir_name = true ↔ occurs "spam" sub_dir_name.
Proof.
  unfold is_spam, find. rewrite Z.leb_le. split.
  - intros Hle. apply (find_at_found "spam" sub_dir_name 0). lia.
  - intros Hocc. apply (find_at_occurs "spam" sub_dir_name 0) in Hocc; [|lia].
    destruct (find_at_ge "spam" sub_dir_name 0); [done|lia].
Qed.

End LoadFacts.

(** ** The train / validation split *)

Module SplitFacts.
Import Features Train Spec.

Lemma take_rows_Some {A} (a : list A) rand_indices rows :
  take_rows a rand_indices = Some rows ↔
  Forall2 (λ i row, a !! i = Some row) rand_indices rows.
Proof.
  revert rows. induction rand_indices as [|i rest IH]; intros rows; simpl.
  - split; [intros [= <-]; constructor|by intros ->%Forall2_nil_inv_l].
  - destruct (a !! i) as [row|] eqn:Hi.
    + destruct (take_rows a rest) as [rows'|].
      * split.
        -- intros [= <-]. constructor; [done|]. by apply IH.
        -- intros (row' & rows'' & Hrow & Hrest & ->)%Forall2_cons_inv_l.
           apply IH in Hrest. by simplify_eq.
      * split; [done|].
        intros (row' & rows'' & Hrow & Hrest & ->)%Forall2_cons_inv_l.
        by apply IH in Hrest.
    + split; [done|].
      intros (row' & rows'' & Hrow & Hrest & ->)%Forall2_cons_inv_l.
      congruence.
Qed.

Lemma delete_from_ext {A} (a : list A) : ∀ i idx1 idx2,
  (∀ j, i ≤ j → j ∈ idx1 ↔ j ∈ idx2) →
  delete_from i idx1 a = delete_from i idx2 a.
Proof.
  induction a as [|row a IH]; intros i idx1 idx2 Hsame; simpl; [done|].
  rewrite (bool_decide_ext _ _ (Hsame i (le_n i))).
  rewrite (IH (S i) idx1 idx2) by (intros j Hj; apply Hsame; lia).
  done.
Qed.

(** The rows picked at distinct positions and the rows left are together
    the rows there were. *)
Lemma delete_from_perm {A} (a : list A) : ∀ i (picks : list (nat * A)),
  NoDup picks.*1 →
  Forall (λ p, i ≤ p.1 ∧ a !! (p.1 - i) = Some p.2) picks →
  picks.*2 ++ delete_from i picks.*1 a ≡ₚ a.
Proof.
  induction a as [|row a IH]; intros i picks Hnd Hpicks.
  - destruct picks as [|p picks]; [done|].
    apply Forall_cons in Hpicks as [[_ Hp] _]. done.
  - cbn [delete_from]. case_bool_decide as Hi.
    + apply list_elem_of_fmap in Hi as ([i' row'] & Hi' & Hin).
      simpl in Hi'. subst i'.
      apply elem_of_Permutation in Hin as [picks' Hperm].
      assert (Hrow : row' = row).
      { rewrite Forall_forall in Hpicks.
        destruct (Hpicks (i, row')) as [_ Hl].
        - rewrite Hperm. apply elem_of_cons. by left.
        - simpl in Hl. rewrite Nat.sub_diag in Hl. by simplify_eq/=. }
      subst row'.
      rewrite Hperm in Hnd, Hpicks. csimpl in Hnd.
      apply NoDup_cons in Hnd as [Hfresh Hnd].
      apply Forall_cons in Hpicks as [_ Hpicks].
      rewrite (delete_from_ext a (S i) picks.*1 picks'.*1).
      * rewrite Hperm. csimpl. constructor. apply IH; [done|].
        rewrite Forall_forall in Hpicks |- *.
        intros [j r] Hjr. destruct (Hpicks _ Hjr) as [Hle Hl]. simpl in *.
        assert (j ≠ i).
        { intros ->. apply Hfresh. apply list_elem_of_fmap.
          by exists (i, r). }
        split; [lia|].
        replace (j - i) with (S (j - S i)) in Hl by lia. done.
      * intros j Hj. rewrite Hperm. csimpl. rewrite elem_of_cons.
        split; [intros [->|?]; [lia|done]|by right].
    + rewrite <- Permutation_middle. constructor.
      apply IH; [done|].
      rewrite Forall_forall in Hpicks |- *.
      intros [j r] Hjr. destruct (Hpicks _ Hjr) as [Hle Hl]. simpl in *.
      assert (j ≠ i).
      { intros ->. apply Hi. apply list_elem_of_fmap. by exists (i, r). }
      split; [lia|].
      replace (j - i) with (S (j - S i)) in Hl by lia. done.
Qed.

Lemma take_delete_perm {A} (a : list A) rand_indices rows :
  NoDup rand_indices →
  take_rows a rand_indices = Some rows →
  rows ++ delete_from 0 rand_indices a ≡ₚ a
  ∧ length rows = length rand_indices.
Proof.
  intros Hnd Hrows%take_rows_Some.
  pose proof (Forall2_length _ _ _ Hrows) as Hlen.
  split; [|done].
  pose proof (delete_from_perm a 0 (zip rand_indices rows)) as Hperm.
  rewrite fst_zip, snd_zip in Hperm by lia.
  apply Hperm; [done|].
  apply Forall_forall. intros [j r] Hjr. simpl.
  split; [lia|]. rewrite Nat.sub_0_r.
  apply list_elem_of_lookup in Hjr as [k Hk].
  apply lookup_zip_with_Some in Hk as (j' & r' & ? & Hj & Hr).
  simplify_eq.
  exact (Forall2_lookup_lr _ _ _ _ _ _ Hrows Hj Hr).
Qed.

Lemma take_rows_zip {A B} (a : list A) (b : list B) rand_indices :
  ∀ rows_a rows_b,
    take_rows a rand_indices = Some rows_a →
    take_rows b rand_indices = Some rows_b →
    take_rows (zip a b) rand_indices = Some (zip rows_a rows_b).
Proof.
  induction rand_indices as [|i rest IH]; intros ra rb; simpl.
  - by intros [= <-] [= <-].
  - destruct (a !! i) as [x|] eqn:Ha; [|done].
    destruct (take_rows a rest) as [ra'|]; [|done].
    destruct (b !! i) as [y|] eqn:Hb; [|done].
    destruct (take_rows b rest) as [rb'|]; [|done].
    intros [= <-] [= <-].
    rewrite lookup_zip_with, Ha, Hb. simpl.
    by rewrite (IH ra' rb').
Qed.

Lemma delete_from_zip {A B} (a : list A) : ∀ (b : list B) i idx,
  delete_from i idx (zip a b)
  = zip (delete_from i idx a) (delete_from i idx b).
Proof.
  induction a as [|x a IH]; intros [|y b] i idx; simpl; try done.
  - by destruct (bool_decide _), (delete_from _ _ a).
  - destruct (bool_decide _); simpl; by rewrite IH.
Qed.

Lemma delete_rows_Some {A} (a : list A) rand_indices rows :
  delete_rows a rand_indices = Some rows →
  rows = delete_from 0 rand_indices a.
Proof. unfold delete_rows. destruct (forallb _ _); congruence. Qed.

(** X23: the split is a partition that keeps every row with its label: for
    distinct indices, the validation pairs and the training pairs together
    are the pairs there were, one validation row per index drawn, and the
    rest for training. *)
Theorem train_validation_split_partition X y rand_indices Xval yval X' y' :
  length X = length y → NoDup rand_indices →
  train_validation_split X y rand_indices = Some ((Xval, yval), (X', y')) →
  zip Xval yval ++ zip X' y' ≡ₚ zip X y
  ∧ length Xval = length rand_indices
  ∧ length yval = length rand_indices
  ∧ length X' = length X - length rand_indices
  ∧ length y' = length X'.
Proof.
  intros Hlen Hnd. unfold train_validation_split.
  destruct (take_rows X rand_indices) as [Xv|] eqn:HXv; [|done].
  destruct (take_rows y rand_indices) as [yv|] eqn:Hyv; [|done].
  destruct (delete_rows X rand_indices) as [Xd|] eqn:HXd; [|done].
  destruct (delete_rows y rand_indices) as [yd|] eqn:Hyd; [|done].
  intros ?; simplify_eq.
  apply delete_rows_Some in HXd, Hyd. subst X' y'.
  destruct (take_delete_perm X rand_indices Xval Hnd HXv) as [HpX HlX].
  destruct (take_delete_perm y rand_indices yval Hnd Hyv) as [Hpy Hly].
  destruct (take_delete_perm (zip X y) rand_indices (zip Xval yval) Hnd
              (take_rows_zip X y rand_indices Xval yval HXv Hyv))
    as [Hpz _].
  rewrite delete_from_zip in Hpz.
  apply Permutation_length in HpX, Hpy. rewrite length_app in HpX, Hpy.
  repeat split; [done|done|done|lia|lia].
Qed.

Lemma train_validation_split_partition_witness :
  zip [[1; 1]; [1; 0]] [1; 1] ++ zip [[0; 1]] [0]
    ≡ₚ zip [[1; 0]; [0; 1]; [1; 1]] [1; 0; 1]
  ∧ length [[1; 1]; [1; 0]] = length [2; 0]
  ∧ length [1; 1] = length [2; 0]
  ∧ length [[0; 1]] = length [[1; 0]; [0; 1]; [1; 1]] - length [2; 0]
  ∧ length [0] = length [[0; 1]].
Proof.
  apply (train_validation_split_partition
           [[1; 0]; [0; 1]; [1; 1]] [1; 0; 1] [2; 0]
           [[1; 1]; [1; 0]] [1; 1] [[0; 1]] [0]).
  - reflexivity.
  - repeat constructor; rewrite ?elem_of_cons, ?elem_of_nil; naive_solver.
  - reflexivity.
Defined.

End SplitFacts.

(** ** predictSamples: what the reports do not tell apart *)

Module ReportFacts.
Import Mail Features Predict Spec PredictFacts TraceFacts.

Lemma printed_app t1 t2 : printed (t1 ++ t2) = printed t1 ++ printed t2.
Proof. apply omap_app. Qed.

Lemma printed_could_not_read filenames :
  printed (concat ((λ f, [Opened f; Printed (could_not_read f)])
                   <$> filenames))
  = could_not_read <$> filenames.
Proof.
  induction filenames as [|f rest IH]; [done|].
  rewrite !fmap_cons. cbn [concat]. rewrite printed_app, IH. done.
Qed.

(** C8, at the input that breaks it: no file of the list can be read.  In a
    world [W] with a vocabulary and a trained model whose [predict] raises
    on a matrix without rows, the call prints the could-not-read lines and
    then the model line.  In a world [W'] without a model it prints exactly
    the same lines.  So the lines do not tell "no source could be read" from
    "no model has been trained": the [except] around [clf.predict] reports
    every exception as a missing model. *)
Theorem predictSamples_reports_collapse stem W W' filenames vocab predict :
  filenames ≠ [] →
  Forall (λ f, read_sample W f = None) filenames →
  Forall (λ f, read_sample W' f = None) filenames →
  vocabulary W = Some vocab → clf W = Some predict → predict [] = None →
  vocabulary W' = Some vocab → clf W' = None →
  printed (predictSamples stem W filenames).1
  = (could_not_read <$> filenames) ++ ["No model has been trained."]
  ∧ printed (predictSamples stem W' filenames).1
    = printed (predictSamples stem W filenames).1
  ∧ (predictSamples stem W filenames).2 = Returned
  ∧ (predictSamples stem W' filenames).2 = Returned.
Proof.
  intros Hne Hall Hall' Hv Hc Hp Hv' Hc'.
  destruct (none_readable W filenames Hall) as [Hmails Hevents].
  destruct (none_readable W' filenames Hall') as [Hmails' Hevents'].
  unfold predictSamples. destruct filenames as [|f0 rest]; [done|].
  rewrite !read_loop_pair, Hmails, Hevents, Hmails', Hevents'.
  rewrite Hv, Hc, Hv', Hc'.
  change (getFeatureMatrix (processMail stem <$> []) vocab)
    with (@nil (list nat)).
  rewrite Hp. cbn [fst snd].
  rewrite !printed_app, !printed_could_not_read, <- !app_assoc.
  split; [by f_equal|]. split; [by f_equal|done].
Qed.

Lemma predictSamples_reports_collapse_witness :
  printed (predictSamples (λ w, w) strict_world ["a.txt"; "b.txt"]).1
  = (could_not_read <$> ["a.txt"; "b.txt"])
    ++ ["No model has been trained."]
  ∧ printed (predictSamples (λ w, w) world_without_model
               ["a.txt"; "b.txt"]).1
    = printed (predictSamples (λ w, w) strict_world ["a.txt"; "b.txt"]).1
  ∧ (predictSamples (λ w, w) strict_world ["a.txt"; "b.txt"]).2 = Returned
  ∧ (predictSamples (λ w, w) world_without_model ["a.txt"; "b.txt"]).2
    = Returned.
Proof.
  apply (predictSamples_reports_collapse (λ w, w) strict_world
           world_without_model ["a.txt"; "b.txt"] ["cheap"; "med"; "meet"]
           (λ X, match X with
                 | [] => None
                 | _ => Some ((λ row, match row with 1 :: _ => 1 | _ => 0 end)
                              <$> X)
                 end)).
  - discriminate.
  - repeat constructor.
  - repeat constructor.
  - reflexivity.
  - reflexivity.
  - reflexivity.
  - reflexivity.
  - reflexivity.
Defined.

End ReportFacts.
